(** * lmq_exporter: the LMQ statistics collector

    A shallow embedding of [main.go]: the snapshot types [lmqStats] and
    [queueStats], the decoding of a response body into them
    ([json.Unmarshal]), the collector [lmqCollector] with its refresh step
    [updateStats] and its scrape entry point [Collect], and an interleaving
    semantics for concurrent scrapes.

    What the program takes from its libraries is modelled as follows.
    - encoding/json: the scanner's state machine byte by byte, string
      unquoting with its UTF-8 and UTF-16 repairs, case-folded matching of
      keys to fields, and decoding directed by the Go types of [lmqStats].
    - strconv: [int] is 64 bits wide; a [float64] is an IEEE 754 binary64
      value, and a decimal literal is rounded to the nearest one.
    - time: instants and durations are integers; the clock is an input.
    - net/http: the outcome of [http.Get] and of reading the body is an
      input; a response carries whatever status code the upstream sent.
    - prometheus: a vector is the finite map from the value of its one
      label to the value of the child. *)

From Stdlib Require Import ZArith Ascii String List Lia.
From Stdlib Require Import Floats.SpecFloat.
From stdpp Require Import base option list strings gmap fin_maps.

Local Open Scope Z_scope.

(** ** Bytes *)

(** A Go [[]byte] is a list of [ascii]; [byte_val] is the numeric value. *)
Definition byte_val (c : ascii) : Z := Z.of_N (N_of_ascii c).

Definition byte_of (n : Z) : ascii := ascii_of_N (Z.to_N n).

Definition in_range (lo hi : Z) (c : ascii) : bool :=
  (lo <=? byte_val c) && (byte_val c <=? hi).

Definition is_digit (c : ascii) : bool := in_range 48 57 c.

Definition is_hex (c : ascii) : bool :=
  is_digit c || in_range 97 102 c || in_range 65 70 c.

(** [isSpace] of encoding/json's scanner. *)
Definition isSpace (c : ascii) : bool :=
  match byte_val c with
  | 32 | 9 | 13 | 10 => true
  | _ => false
  end.

Definition byte_eqb (a b : ascii) : bool := Ascii.eqb a b.

(** The double quote, byte 34. *)
Definition dquote : ascii := byte_of 34.

(** ** float64 *)

(** IEEE 754 binary64: precision 53, infinities at exponent 1024. *)
Definition float64 : Type := spec_float.
Definition prec64 : Z := 53.
Definition emax64 : Z := 1024.

#[global] Instance float64_eq_dec : EqDecision float64.
Proof. unfold float64. solve_decision. Defined.

(** [float64(n)] for an [int] n: round to nearest, ties to even. *)
Definition float64_of_int (n : Z) : float64 :=
  binary_normalize prec64 emax64 n 0 false.

(** The binary64 nearest to [m * 10^e10] (ties to even), with sign [neg];
    this is what strconv.ParseFloat computes for a decimal literal. *)
Definition float64_of_decimal (neg : bool) (m : Z) (e10 : Z) : float64 :=
  match m with
  | Z0 => S754_zero neg
  | Zneg _ => S754_nan
  | Zpos p =>
      if 0 <=? e10 then binary_round prec64 emax64 neg (Z.to_pos (m * 10 ^ e10)) 0
      else
        let '(q, e, l) :=
          SFdiv_core_binary prec64 emax64 m 0 (10 ^ (- e10)) 0 in
        binary_round_aux prec64 emax64 neg q e l
  end.

Definition is_finite64 (f : float64) : bool :=
  match f with
  | S754_zero _ | S754_finite _ _ _ => true
  | _ => false
  end.

(** ** Number literals: strconv.ParseInt and strconv.ParseFloat *)

Fixpoint digits_val (acc : Z) (s : list ascii) : option Z :=
  match s with
  | [] => Some acc
  | c :: s' =>
      if is_digit c then digits_val (10 * acc + (byte_val c - 48)) s' else None
  end.

Definition int64_min : Z := - 2 ^ 63.
Definition int64_max : Z := 2 ^ 63 - 1.

(** [strconv.ParseInt(s, 10, 64)] on a JSON number literal: a sign and
    digits only, and the value must fit an int64 (Go's [int] on 64-bit
    platforms). *)
Definition ParseInt (s : list ascii) : option Z :=
  let '(neg, ds) :=
    match s with
    | "-"%char :: s' => (true, s')
    | _ => (false, s)
    end in
  match ds with
  | [] => None
  | _ =>
      match digits_val 0 ds with
      | Some n =>
          let v := if neg then - n else n in
          if (int64_min <=? v) && (v <=? int64_max) then Some v else None
      | None => None
      end
  end.

(** The pieces of a JSON number literal: mantissa digits read as an
    integer, the count of fraction digits, and the exponent. *)
Record decimal := {
  d_neg : bool;
  d_mant : Z;
  d_ndigits : Z;
  d_scale : Z;
  d_exp : Z
}.

Fixpoint read_exp (neg : bool) (acc : Z) (s : list ascii) : Z :=
  match s with
  | [] => if neg then - acc else acc
  | c :: s' =>
      if byte_eqb c "-" then read_exp true acc s'
      else if byte_eqb c "+" then read_exp neg acc s'
      else read_exp neg (10 * acc + (byte_val c - 48)) s'
  end.

Fixpoint read_mant (frac : bool) (d : decimal) (s : list ascii) : decimal :=
  match s with
  | [] => d
  | c :: s' =>
      if byte_eqb c "-" then
        read_mant frac
          {| d_neg := true; d_mant := d_mant d; d_ndigits := d_ndigits d;
             d_scale := d_scale d; d_exp := d_exp d |} s'
      else if byte_eqb c "." then read_mant true d s'
      else if byte_eqb c "e" || byte_eqb c "E" then
        {| d_neg := d_neg d; d_mant := d_mant d; d_ndigits := d_ndigits d;
           d_scale := d_scale d; d_exp := read_exp false 0 s' |}
      else
        read_mant frac
          {| d_neg := d_neg d;
             d_mant := 10 * d_mant d + (byte_val c - 48);
             d_ndigits := if (d_mant d =? 0) && (byte_val c =? 48)
                          then 0 else d_ndigits d + 1;
             d_scale := if frac then d_scale d + 1 else d_scale d;
             d_exp := 0 |} s'
  end.

Definition read_decimal (s : list ascii) : decimal :=
  read_mant false
    {| d_neg := false; d_mant := 0; d_ndigits := 0; d_scale := 0; d_exp := 0 |} s.

(** [strconv.ParseFloat(s, 64)] on a JSON number literal: the nearest
    binary64; a value that rounds to an infinity is a range error, a value
    that underflows is a zero.  Magnitudes far outside the binary64 range
    are settled without computing the power of ten. *)
Definition ParseFloat (s : list ascii) : option float64 :=
  let d := read_decimal s in
  let e10 := d_exp d - d_scale d in
  if d_mant d =? 0 then Some (S754_zero (d_neg d))
  else if 310 <? d_ndigits d + e10 then None
  else if d_ndigits d + e10 <? -330 then Some (S754_zero (d_neg d))
  else
    let f := float64_of_decimal (d_neg d) (d_mant d) e10 in
    if is_finite64 f then Some f else None.

(** ** JSON values *)

(** A number keeps its literal text, as encoding/json does until the
    target type is known; object members keep document order and
    duplicates. *)
Unset Elimination Schemes.
Inductive json : Type :=
| JNull
| JBool (b : bool)
| JNumber (lit : string)
| JString (s : string)
| JArray (elems : list json)
| JObject (members : list (string * json)).
Set Elimination Schemes.

(** ** Unquoting string literals (encoding/json [unquoteBytes]) *)

Definition hex_val (c : ascii) : Z :=
  if is_digit c then byte_val c - 48
  else if in_range 97 102 c then byte_val c - 87
  else byte_val c - 55.

Definition hex4 (a b c d : ascii) : Z :=
  ((hex_val a * 16 + hex_val b) * 16 + hex_val c) * 16 + hex_val d.

(** [utf8.EncodeRune]; surrogates and out-of-range runes become U+FFFD. *)
Definition EncodeRune (r : Z) : list ascii :=
  if r <? 128 then [byte_of r]
  else if r <? 2048 then
    [byte_of (192 + r / 64); byte_of (128 + r mod 64)]
  else if ((55296 <=? r) && (r <? 57344)) || (1114111 <? r) then
    [byte_of 239; byte_of 191; byte_of 189]
  else if r <? 65536 then
    [byte_of (224 + r / 4096); byte_of (128 + (r / 64) mod 64);
     byte_of (128 + r mod 64)]
  else
    [byte_of (240 + r / 262144); byte_of (128 + (r / 4096) mod 64);
     byte_of (128 + (r / 64) mod 64); byte_of (128 + r mod 64)].

Definition ReplacementChar : Z := 65533.

Definition is_cont (c : ascii) : bool := in_range 128 191 c.

(** Length of the well-formed UTF-8 sequence that starts with [c0] followed
    by [rest], or 0 when [utf8.DecodeRune] reports an encoding error. *)
Definition utf8_seq_len (c0 : ascii) (rest : list ascii) : nat :=
  let b0 := byte_val c0 in
  if (194 <=? b0) && (b0 <=? 223) then
    match rest with
    | c1 :: _ => if is_cont c1 then 2%nat else 0%nat
    | _ => 0%nat
    end
  else if (224 <=? b0) && (b0 <=? 239) then
    match rest with
    | c1 :: c2 :: _ =>
        let lo := if b0 =? 224 then 160 else 128 in
        let hi := if b0 =? 237 then 159 else 191 in
        if in_range lo hi c1 && is_cont c2 then 3%nat else 0%nat
    | _ => 0%nat
    end
  else if (240 <=? b0) && (b0 <=? 244) then
    match rest with
    | c1 :: c2 :: c3 :: _ =>
        let lo := if b0 =? 240 then 144 else 128 in
        let hi := if b0 =? 244 then 143 else 191 in
        if in_range lo hi c1 && is_cont c2 && is_cont c3 then 4%nat else 0%nat
    | _ => 0%nat
    end
  else 0%nat.

Definition escape_byte (c : ascii) : ascii :=
  if byte_eqb c "b" then byte_of 8
  else if byte_eqb c "f" then byte_of 12
  else if byte_eqb c "n" then byte_of 10
  else if byte_eqb c "r" then byte_of 13
  else if byte_eqb c "t" then byte_of 9
  else c.

Definition is_surrogate (r : Z) : bool := (55296 <=? r) && (r <? 57344).

(** [utf16.DecodeRune]. *)
Definition utf16_DecodeRune (r1 r2 : Z) : Z :=
  if (55296 <=? r1) && (r1 <? 56320) && (56320 <=? r2) && (r2 <? 57344)
  then (r1 - 55296) * 1024 + (r2 - 56320) + 65536
  else ReplacementChar.

(** [unquote copy s]: the decoded bytes of the raw contents [s] of a
    string literal the scanner accepted; [copy] counts the continuation
    bytes of a well-formed UTF-8 sequence still to be copied. *)
Fixpoint unquote (copy : nat) (s : list ascii) : list ascii :=
  match s with
  | [] => []
  | c :: rest =>
      match copy with
      | S k => c :: unquote k rest
      | O =>
          if byte_eqb c "\" then
            match rest with
            | e :: rest1 =>
                if byte_eqb e "u" then
                  match rest1 with
                  | h1 :: h2 :: h3 :: h4 :: rest2 =>
                      let rr := hex4 h1 h2 h3 h4 in
                      if is_surrogate rr then
                        match rest2 with
                        | b1 :: u1 :: g1 :: g2 :: g3 :: g4 :: rest3 =>
                            let dec :=
                              if byte_eqb b1 "\" && byte_eqb u1 "u"
                              then utf16_DecodeRune rr (hex4 g1 g2 g3 g4)
                              else ReplacementChar in
                            if dec =? ReplacementChar
                            then EncodeRune ReplacementChar ++ unquote O rest2
                            else EncodeRune dec ++ unquote O rest3
                        | _ => EncodeRune ReplacementChar ++ unquote O rest2
                        end
                      else EncodeRune rr ++ unquote O rest2
                  | _ => []
                  end
                else escape_byte e :: unquote O rest1
            | [] => []
            end
          else if byte_val c <? 128 then c :: unquote O rest
          else
            match utf8_seq_len c rest with
            | O => EncodeRune ReplacementChar ++ unquote O rest
            | S k => c :: unquote k rest
            end
      end
  end.

(** ** The scanner (encoding/json [scanner.go]) with value construction *)

(** A container under construction, innermost first.  An object frame
    carries the key whose value is awaited, if any. *)
Inductive frame : Type :=
| FArray (done : list json)
| FObject (done : list (string * json)) (key : option string).

(** The scanner's [step] field.  String and number states carry the
    bytes read so far, newest first. *)
Inductive step_state : Type :=
| stateBeginValueOrEmpty
| stateBeginValue
| stateBeginStringOrEmpty
| stateBeginString
| stateEndValue
| stateEndTop (v : json)
| stateInString (raw : list ascii)
| stateInStringEsc (raw : list ascii)
| stateInStringEscU (more : nat) (raw : list ascii)
| stateNeg (lit : list ascii)
| state1 (lit : list ascii)
| state0 (lit : list ascii)
| stateDot (lit : list ascii)
| stateDot0 (lit : list ascii)
| stateE (lit : list ascii)
| stateESign (lit : list ascii)
| stateE0 (lit : list ascii)
| stateLit (expect : list ascii) (v : json)
| stateError.

Record scanner := {
  step : step_state;
  parseState : list frame
}.

Definition scan_error : scanner := {| step := stateError; parseState := [] |}.

(** Nesting limit of the scanner's [pushParseState]. *)
Definition maxNestingDepth : Z := 10000.

(** A complete value [v] has been read: it is the whole document, or it
    joins the innermost container. *)
Definition end_value (v : json) (ps : list frame) : scanner :=
  match ps with
  | [] => {| step := stateEndTop v; parseState := [] |}
  | FArray done :: ps' =>
      {| step := stateEndValue; parseState := FArray (v :: done) :: ps' |}
  | FObject done (Some k) :: ps' =>
      {| step := stateEndValue; parseState := FObject ((k, v) :: done) None :: ps' |}
  | FObject done None :: ps' => scan_error
  end.

(** A complete string literal: an object key when the innermost object
    awaits one, a value otherwise. *)
Definition end_string (raw : list ascii) (ps : list frame) : scanner :=
  let s := string_of_list_ascii (unquote O (rev raw)) in
  match ps with
  | FObject done None :: ps' =>
      {| step := stateEndValue; parseState := FObject done (Some s) :: ps' |}
  | _ => end_value (JString s) ps
  end.

Definition pushParseState (f : frame) (st : step_state) (ps : list frame) : scanner :=
  if maxNestingDepth <? Z.of_nat (length (f :: ps)) then scan_error
  else {| step := st; parseState := f :: ps |}.

(** [stateEndValue]: after a value inside a container. *)
Definition do_EndValue (ps : list frame) (c : ascii) : scanner :=
  if isSpace c then {| step := stateEndValue; parseState := ps |}
  else
    match ps with
    | [] => scan_error
    | FObject done (Some k) :: ps' =>
        if byte_eqb c ":" then {| step := stateBeginValue; parseState := ps |}
        else scan_error
    | FObject done None :: ps' =>
        if byte_eqb c "," then {| step := stateBeginString; parseState := ps |}
        else if byte_eqb c "}" then end_value (JObject (rev done)) ps'
        else scan_error
    | FArray done :: ps' =>
        if byte_eqb c "," then {| step := stateBeginValue; parseState := ps |}
        else if byte_eqb c "]" then end_value (JArray (rev done)) ps'
        else scan_error
    end.

(** [stateBeginValue]. *)
Definition do_BeginValue (ps : list frame) (c : ascii) : scanner :=
  if isSpace c then {| step := stateBeginValue; parseState := ps |}
  else if byte_eqb c "{" then pushParseState (FObject [] None) stateBeginStringOrEmpty ps
  else if byte_eqb c "[" then pushParseState (FArray []) stateBeginValueOrEmpty ps
  else if byte_eqb c dquote then {| step := stateInString []; parseState := ps |}
  else if byte_eqb c "-" then {| step := stateNeg [c]; parseState := ps |}
  else if byte_eqb c "0" then {| step := state0 [c]; parseState := ps |}
  else if byte_eqb c "t" then
    {| step := stateLit (list_ascii_of_string "rue") (JBool true); parseState := ps |}
  else if byte_eqb c "f" then
    {| step := stateLit (list_ascii_of_string "alse") (JBool false); parseState := ps |}
  else if byte_eqb c "n" then
    {| step := stateLit (list_ascii_of_string "ull") JNull; parseState := ps |}
  else if in_range 49 57 c then {| step := state1 [c]; parseState := ps |}
  else scan_error.

(** [stateBeginString]. *)
Definition do_BeginString (ps : list frame) (c : ascii) : scanner :=
  if isSpace c then {| step := stateBeginString; parseState := ps |}
  else if byte_eqb c dquote then {| step := stateInString []; parseState := ps |}
  else scan_error.

(** The end of a number literal: the value is complete and the byte that
    ended it is looked at again by [stateEndValue] / [stateEndTop]. *)
Definition end_number (lit : list ascii) (ps : list frame) (c : ascii) : scanner :=
  let s := end_value (JNumber (string_of_list_ascii (rev lit))) ps in
  match step s with
  | stateEndValue => do_EndValue (parseState s) c
  | stateEndTop v => if isSpace c then s else scan_error
  | _ => scan_error
  end.

(** [state0]: after a leading 0, or after the integer digits. *)
Definition do_state0 (lit : list ascii) (ps : list frame) (c : ascii) : scanner :=
  if byte_eqb c "." then {| step := stateDot (c :: lit); parseState := ps |}
  else if byte_eqb c "e" || byte_eqb c "E" then
    {| step := stateE (c :: lit); parseState := ps |}
  else end_number lit ps c.

(** [stateESign]: after the exponent's sign, or in its place. *)
Definition do_ESign (lit : list ascii) (ps : list frame) (c : ascii) : scanner :=
  if is_digit c then {| step := stateE0 (c :: lit); parseState := ps |}
  else scan_error.

(** One byte through the scanner. *)
Definition scan_step (s : scanner) (c : ascii) : scanner :=
  let ps := parseState s in
  match step s with
  | stateBeginValueOrEmpty =>
      if isSpace c then s
      else if byte_eqb c "]" then do_EndValue ps c
      else do_BeginValue ps c
  | stateBeginValue => do_BeginValue ps c
  | stateBeginStringOrEmpty =>
      if isSpace c then s
      else if byte_eqb c "}" then do_EndValue ps c
      else do_BeginString ps c
  | stateBeginString => do_BeginString ps c
  | stateEndValue => do_EndValue ps c
  | stateEndTop v => if isSpace c then s else scan_error
  | stateInString raw =>
      if byte_eqb c dquote then end_string raw ps
      else if byte_eqb c "\" then {| step := stateInStringEsc (c :: raw); parseState := ps |}
      else if byte_val c <? 32 then scan_error
      else {| step := stateInString (c :: raw); parseState := ps |}
  | stateInStringEsc raw =>
      if byte_eqb c "u" then {| step := stateInStringEscU 4 (c :: raw); parseState := ps |}
      else if existsb (byte_eqb c) (list_ascii_of_string "bfnrt\/" ++ [dquote])
      then {| step := stateInString (c :: raw); parseState := ps |}
      else scan_error
  | stateInStringEscU more raw =>
      if is_hex c then
        match more with
        | S (S k) => {| step := stateInStringEscU (S k) (c :: raw); parseState := ps |}
        | _ => {| step := stateInString (c :: raw); parseState := ps |}
        end
      else scan_error
  | stateNeg lit =>
      if byte_eqb c "0" then {| step := state0 (c :: lit); parseState := ps |}
      else if in_range 49 57 c then {| step := state1 (c :: lit); parseState := ps |}
      else scan_error
  | state1 lit =>
      if is_digit c then {| step := state1 (c :: lit); parseState := ps |}
      else do_state0 lit ps c
  | state0 lit => do_state0 lit ps c
  | stateDot lit =>
      if is_digit c then {| step := stateDot0 (c :: lit); parseState := ps |}
      else scan_error
  | stateDot0 lit =>
      if is_digit c then {| step := stateDot0 (c :: lit); parseState := ps |}
      else if byte_eqb c "e" || byte_eqb c "E" then
        {| step := stateE (c :: lit); parseState := ps |}
      else end_number lit ps c
  | stateE lit =>
      if byte_eqb c "+" || byte_eqb c "-" then
        {| step := stateESign (c :: lit); parseState := ps |}
      else do_ESign lit ps c
  | stateESign lit => do_ESign lit ps c
  | stateE0 lit =>
      if is_digit c then {| step := stateE0 (c :: lit); parseState := ps |}
      else end_number lit ps c
  | stateLit expect v =>
      match expect with
      | [] => scan_error
      | x :: expect' =>
          if byte_eqb c x then
            match expect' with
            | [] => end_value v ps
            | _ => {| step := stateLit expect' v; parseState := ps |}
            end
          else scan_error
      end
  | stateError => scan_error
  end.

(** [checkValid] and value construction in one pass: feed every byte,
    then a space for the end of input ([scanner.eof]); the document is
    well-formed exactly when the scanner then rests after a top-level
    value. *)
Definition scan (data : list ascii) : option json :=
  let s := fold_left scan_step data {| step := stateBeginValue; parseState := [] |} in
  match step (scan_step s " ") with
  | stateEndTop v => Some v
  | _ => None
  end.

(** ** Errors *)

Inductive error : Type :=
| NetError (msg : string)
| SyntaxError
| UnmarshalTypeError (value : string).

Inductive result (A : Type) : Type :=
| Ok (a : A)
| Err (e : error).
Arguments Ok {A} a.
Arguments Err {A} e.

Definition bind {A B : Type} (r : result A) (k : A -> result B) : result B :=
  match r with
  | Ok a => k a
  | Err e => Err e
  end.

Notation "x <- r ;; k" := (bind r (fun x => k))
  (at level 100, r at next level, right associativity).

(** ** The snapshot types *)

Record counterStats := { Count : Z }.

Record retentionStats := {
  Min : float64;
  Max : float64;
  Mean : float64;
  Median : float64
}.

Record statsGroup := {
  Push : counterStats;
  Pull : counterStats;
  Retention : retentionStats
}.

Record queueStats := {
  Size : Z;
  Memory : Z;
  Stats : statsGroup
}.

(** [Queues map[string]*queueStats]: [None] is a nil pointer. *)
Record lmqStats := {
  Queues : gmap string (option queueStats)
}.

Definition zero64 : float64 := S754_zero false.

Definition zero_retention : retentionStats :=
  {| Min := zero64; Max := zero64; Mean := zero64; Median := zero64 |}.

Definition zero_queueStats : queueStats :=
  {| Size := 0; Memory := 0;
     Stats := {| Push := {| Count := 0 |}; Pull := {| Count := 0 |};
                 Retention := zero_retention |} |}.

Definition zero_lmqStats : lmqStats := {| Queues := ∅ |}.

(** ** Matching object keys to struct fields *)

Definition is_letter (c : ascii) : bool := in_range 65 90 c || in_range 97 122 c.

Definition upper (c : ascii) : Z :=
  if in_range 97 122 c then byte_val c - 32 else byte_val c.

(** Equality of an ASCII field name and a key under Unicode simple case
    folding: letters match in either case, and the Kelvin sign (U+212A)
    and the long s (U+017F) fold to k and s. *)
Fixpoint equalFold (name key : list ascii) : bool :=
  match name, key with
  | [], [] => true
  | n :: name', k :: key' =>
      if byte_val k <? 128 then
        (if is_letter n then upper n =? upper k else byte_eqb n k)
        && equalFold name' key'
      else if upper n =? 75 then
        match key with
        | b0 :: b1 :: b2 :: key'' =>
            (byte_val b0 =? 226) && (byte_val b1 =? 132) && (byte_val b2 =? 170)
            && match key' with
               | _ :: _ :: key3 => equalFold name' key3
               | _ => false
               end
        | _ => false
        end
      else if upper n =? 83 then
        match key' with
        | b1 :: key2 =>
            (byte_val k =? 197) && (byte_val b1 =? 191) && equalFold name' key2
        | _ => false
        end
      else false
  | _, _ => false
  end.

Fixpoint index_where {A : Type} (p : A -> bool) (l : list A) : option nat :=
  match l with
  | [] => None
  | x :: l' => if p x then Some O else S <$> index_where p l'
  end.

(** The field an object key selects: the one with exactly that name, or
    else the first whose name equals the key under case folding. *)
Definition match_field (names : list string) (key : string) : option nat :=
  match index_where (String.eqb key) names with
  | Some i => Some i
  | None =>
      index_where
        (fun n => equalFold (list_ascii_of_string n) (list_ascii_of_string key))
        names
  end.

(** ** Decoding (encoding/json [decode.go]), by target type *)

(** The [Value] of an UnmarshalTypeError for a JSON value of the wrong
    kind. *)
Definition json_kind (v : json) : string :=
  match v with
  | JNull => "null"
  | JBool _ => "bool"
  | JNumber _ => "number"
  | JString _ => "string"
  | JArray _ => "array"
  | JObject _ => "object"
  end.

(** Into an [int]: null leaves the field as it is. *)
Definition unmarshal_int (v : json) (old : Z) : result Z :=
  match v with
  | JNull => Ok old
  | JNumber lit =>
      match ParseInt (list_ascii_of_string lit) with
      | Some n => Ok n
      | None => Err (UnmarshalTypeError ("number " ++ lit))
      end
  | _ => Err (UnmarshalTypeError (json_kind v))
  end.

(** Into a [float64]. *)
Definition unmarshal_float64 (v : json) (old : float64) : result float64 :=
  match v with
  | JNull => Ok old
  | JNumber lit =>
      match ParseFloat (list_ascii_of_string lit) with
      | Some f => Ok f
      | None => Err (UnmarshalTypeError ("number " ++ lit))
      end
  | _ => Err (UnmarshalTypeError (json_kind v))
  end.

(** Into a struct with fields [names]: each member in document order sets
    the field its key selects ([set i]); other members are skipped; null
    leaves the struct as it is. *)
Definition unmarshal_struct {A : Type} (names : list string)
    (set : nat -> json -> A -> result A) (v : json) (old : A) : result A :=
  match v with
  | JNull => Ok old
  | JObject members =>
      fold_left
        (fun acc kv =>
           a <- acc ;;
           match match_field names (fst kv) with
           | Some i => set i (snd kv) a
           | None => Ok a
           end)
        members (Ok old)
  | _ => Err (UnmarshalTypeError (json_kind v))
  end.

Definition unmarshal_counterStats : json -> counterStats -> result counterStats :=
  unmarshal_struct ["Count"]
    (fun i x s =>
       match i with
       | O => n <- unmarshal_int x (Count s) ;; Ok {| Count := n |}
       | _ => Ok s
       end).

Definition unmarshal_retentionStats
  : json -> retentionStats -> result retentionStats :=
  unmarshal_struct ["Min"; "Max"; "arithmetic_mean"; "Median"]
    (fun i x s =>
       match i with
       | 0%nat => f <- unmarshal_float64 x (Min s) ;;
           Ok {| Min := f; Max := Max s; Mean := Mean s; Median := Median s |}
       | 1%nat => f <- unmarshal_float64 x (Max s) ;;
           Ok {| Min := Min s; Max := f; Mean := Mean s; Median := Median s |}
       | 2%nat => f <- unmarshal_float64 x (Mean s) ;;
           Ok {| Min := Min s; Max := Max s; Mean := f; Median := Median s |}
       | 3%nat => f <- unmarshal_float64 x (Median s) ;;
           Ok {| Min := Min s; Max := Max s; Mean := Mean s; Median := f |}
       | _ => Ok s
       end).

Definition unmarshal_statsGroup : json -> statsGroup -> result statsGroup :=
  unmarshal_struct ["Push"; "Pull"; "Retention"]
    (fun i x s =>
       match i with
       | 0%nat => c <- unmarshal_counterStats x (Push s) ;;
           Ok {| Push := c; Pull := Pull s; Retention := Retention s |}
       | 1%nat => c <- unmarshal_counterStats x (Pull s) ;;
           Ok {| Push := Push s; Pull := c; Retention := Retention s |}
       | 2%nat => r <- unmarshal_retentionStats x (Retention s) ;;
           Ok {| Push := Push s; Pull := Pull s; Retention := r |}
       | _ => Ok s
       end).

Definition unmarshal_queueStats : json -> queueStats -> result queueStats :=
  unmarshal_struct ["Size"; "Memory"; "Stats"]
    (fun i x s =>
       match i with
       | 0%nat => n <- unmarshal_int x (Size s) ;;
           Ok {| Size := n; Memory := Memory s; Stats := Stats s |}
       | 1%nat => n <- unmarshal_int x (Memory s) ;;
           Ok {| Size := Size s; Memory := n; Stats := Stats s |}
       | 2%nat => g <- unmarshal_statsGroup x (Stats s) ;;
           Ok {| Size := Size s; Memory := Memory s; Stats := g |}
       | _ => Ok s
       end).

(** Into a map element of type [*queueStats]: null stores a nil pointer;
    anything else is decoded into a freshly allocated zero struct. *)
Definition unmarshal_queueStats_ptr (v : json) : result (option queueStats) :=
  match v with
  | JNull => Ok None
  | _ => q <- unmarshal_queueStats v zero_queueStats ;; Ok (Some q)
  end.

(** Into [map[string]*queueStats]: null makes the map nil; an object adds
    its members to the map, a later duplicate key replacing an earlier
    one. *)
Definition unmarshal_Queues (v : json) (old : gmap string (option queueStats))
  : result (gmap string (option queueStats)) :=
  match v with
  | JNull => Ok ∅
  | JObject members =>
      fold_left
        (fun acc kv =>
           m <- acc ;;
           q <- unmarshal_queueStats_ptr (snd kv) ;;
           Ok (<[fst kv := q]> m))
        members (Ok old)
  | _ => Err (UnmarshalTypeError (json_kind v))
  end.

Definition unmarshal_lmqStats : json -> lmqStats -> result lmqStats :=
  unmarshal_struct ["Queues"]
    (fun i x s =>
       match i with
       | O => m <- unmarshal_Queues x (Queues s) ;; Ok {| Queues := m |}
       | _ => Ok s
       end).

(** [var stats lmqStats; err = json.Unmarshal(b, &stats)]: the body must
    be one well-formed JSON document, which is then decoded into the zero
    [lmqStats]. *)
Definition Unmarshal (b : string) : result lmqStats :=
  match scan (list_ascii_of_string b) with
  | None => Err SyntaxError
  | Some v => unmarshal_lmqStats v zero_lmqStats
  end.

(** ** The metric vectors *)

(** The eight vectors of [lmqCollector], in the order [Collect] walks
    them. *)
Inductive metric : Type :=
| m_size
| m_memory
| m_push
| m_pull
| m_retentionMin
| m_retentionMax
| m_retentionMean
| m_retentionMedian.

#[global] Instance metric_eq_dec : EqDecision metric.
Proof. solve_decision. Defined.

Definition all_metrics : list metric :=
  [m_size; m_memory; m_push; m_pull;
   m_retentionMin; m_retentionMax; m_retentionMean; m_retentionMedian].

(** ** The collector *)

(** [time.Time] is an instant on the integer line (nanoseconds), the zero
    [Time] being instant 0; [time.Duration] is an integer number of
    nanoseconds.  A [GaugeVec] or [CounterVec] with the single label
    [queue] is the finite map from label value to the child's current
    value.  The mutex [m] appears in the interleaving semantics below. *)
Record lmqCollector := {
  uri : string;
  interval : Z;
  expired : Z;
  size : gmap string float64;
  memory : gmap string float64;
  push : gmap string float64;
  pull : gmap string float64;
  retentionMin : gmap string float64;
  retentionMax : gmap string float64;
  retentionMean : gmap string float64;
  retentionMedian : gmap string float64
}.

Definition newLMQCollector (uri : string) (interval : Z) : lmqCollector :=
  {| uri := uri; interval := interval; expired := 0;
     size := ∅; memory := ∅; push := ∅; pull := ∅;
     retentionMin := ∅; retentionMax := ∅;
     retentionMean := ∅; retentionMedian := ∅ |}.

Definition vec (m : metric) (c : lmqCollector) : gmap string float64 :=
  match m with
  | m_size => size c
  | m_memory => memory c
  | m_push => push c
  | m_pull => pull c
  | m_retentionMin => retentionMin c
  | m_retentionMax => retentionMax c
  | m_retentionMean => retentionMean c
  | m_retentionMedian => retentionMedian c
  end.

(** [c.<m>.WithLabelValues(name).Set(v)]: the child for [name] is created
    if the vector has none, and its value becomes [v]; [Set] stores the
    value on a gauge and on a counter alike. *)
Definition Set_ (m : metric) (name : string) (v : float64) (c : lmqCollector)
  : lmqCollector :=
  let upd (m' : metric) :=
    if decide (m' = m) then <[name := v]> (vec m' c) else vec m' c in
  {| uri := uri c; interval := interval c; expired := expired c;
     size := upd m_size; memory := upd m_memory;
     push := upd m_push; pull := upd m_pull;
     retentionMin := upd m_retentionMin; retentionMax := upd m_retentionMax;
     retentionMean := upd m_retentionMean;
     retentionMedian := upd m_retentionMedian |}.

Definition set_expired (t : Z) (c : lmqCollector) : lmqCollector :=
  {| uri := uri c; interval := interval c; expired := t;
     size := size c; memory := memory c; push := push c; pull := pull c;
     retentionMin := retentionMin c; retentionMax := retentionMax c;
     retentionMean := retentionMean c; retentionMedian := retentionMedian c |}.

(** The value each vector receives from a queue's statistics. *)
Definition stat_value (m : metric) (q : queueStats) : float64 :=
  match m with
  | m_size => float64_of_int (Size q)
  | m_memory => float64_of_int (Memory q)
  | m_push => float64_of_int (Count (Push (Stats q)))
  | m_pull => float64_of_int (Count (Pull (Stats q)))
  | m_retentionMin => Min (Retention (Stats q))
  | m_retentionMax => Max (Retention (Stats q))
  | m_retentionMean => Mean (Retention (Stats q))
  | m_retentionMedian => Median (Retention (Stats q))
  end.

(** One iteration of the loop in [updateStats]: the eight [Set] calls, in
    source order. *)
Definition set_queue (name : string) (q : queueStats) (c : lmqCollector)
  : lmqCollector :=
  fold_left (fun c' m => Set_ m name (stat_value m q) c') all_metrics c.

(** ** The environment of one call *)

(** What [ioutil.ReadAll(resp.Body)] returns. *)
Inductive read_result : Type :=
| ReadOk (body : string)
| ReadErr (msg : string).

(** What [http.Get] returns: an error, or a response with its status code
    (whatever it is) and a body to read. *)
Inductive get_result : Type :=
| GetErr (msg : string)
| GetResp (status : Z) (body : read_result).

(** Everything one call of [updateStats] takes from outside: the clock at
    the freshness check, the upstream's answer, the clock when [expired]
    is set, and the choices that fix the order in which [range] walks the
    map. *)
Record world := {
  now_check : Z;
  http_Get : string -> get_result;
  now_update : Z;
  range_picks : list nat
}.

(** An iteration order: the next element is picked among those left;
    every order of [l] arises from some [picks]. *)
Fixpoint shuffle {A : Type} (picks : list nat) (l : list A) : list A :=
  match picks with
  | [] => l
  | p :: picks' =>
      match l !! (p mod length l)%nat with
      | Some x => x :: shuffle picks' (delete (p mod length l)%nat l)
      | None => l
      end
  end.

Definition range_order (w : world) (stats : lmqStats)
  : list (string * option queueStats) :=
  shuffle (range_picks w) (map_to_list (Queues stats)).

(** ** updateStats *)

(** How a call ends: it returns (an error or nil), or it panics. *)
Inductive outcome : Type :=
| Returned (err : option error)
| Panicked.

(** [c.<m>.WithLabelValues(name)] alone: the child is created, with value
    0, if the vector has none. *)
Definition WithLabelValues (m : metric) (name : string) (c : lmqCollector)
  : lmqCollector :=
  match vec m c !! name with
  | Some _ => c
  | None => Set_ m name zero64 c
  end.

(** [for name, q := range stats.Queues { ... }]: a nil [q] makes the
    first statement panic when it reads [q.Size], leaving the queues
    already walked updated.  The receiver [c.size.WithLabelValues(name)]
    of that statement is evaluated before the argument of [Set] (the order
    the gc compiler gives them), so the size vector has a child for [name]
    by then. *)
Fixpoint range_Queues (l : list (string * option queueStats)) (c : lmqCollector)
  : lmqCollector * outcome :=
  match l with
  | [] => (c, Returned None)
  | (name, Some q) :: l' => range_Queues l' (set_queue name q c)
  | (name, None) :: _ => (WithLabelValues m_size name c, Panicked)
  end.

(** The response is read and decoded; the status code is not looked at. *)
Definition fetch (g : get_result) : result lmqStats :=
  match g with
  | GetErr msg => Err (NetError msg)
  | GetResp _ (ReadErr msg) => Err (NetError msg)
  | GetResp _ (ReadOk b) => Unmarshal b
  end.

Record update := {
  u_state : lmqCollector;
  u_fetched : bool;
  u_outcome : outcome
}.

Definition updateStats (c : lmqCollector) (w : world) : update :=
  if now_check w <? expired c then
    {| u_state := c; u_fetched := false; u_outcome := Returned None |}
  else
    match fetch (http_Get w (uri c)) with
    | Err e =>
        {| u_state := c; u_fetched := true; u_outcome := Returned (Some e) |}
    | Ok stats =>
        let c1 := set_expired (now_update w + interval c) c in
        let '(c2, o) := range_Queues (range_order w stats) c1 in
        {| u_state := c2; u_fetched := true; u_outcome := o |}
    end.

(** ** Collect *)

Inductive log_entry : Type :=
| FailedToUpdateMetrics (err : error).

(** What one [c.<m>.Collect(ch)] sends: the vector's children. *)
Definition batch : Type := metric * gmap string float64.

Definition collect_all (c : lmqCollector) : list batch :=
  map (fun m => (m, vec m c)) all_metrics.

(** One scrape: the collector afterwards, whether upstream was fetched,
    what was logged, what was sent on [ch], and whether the call
    panicked instead of returning. *)
Record scrape := {
  s_state : lmqCollector;
  s_fetched : bool;
  s_log : list log_entry;
  s_sent : list batch;
  s_panicked : bool
}.

Definition Collect (c : lmqCollector) (w : world) : scrape :=
  let u := updateStats c w in
  match u_outcome u with
  | Returned (Some err) =>
      {| s_state := u_state u; s_fetched := u_fetched u;
         s_log := [FailedToUpdateMetrics err]; s_sent := [];
         s_panicked := false |}
  | Returned None =>
      {| s_state := u_state u; s_fetched := u_fetched u;
         s_log := []; s_sent := collect_all (u_state u);
         s_panicked := false |}
  | Panicked =>
      {| s_state := u_state u; s_fetched := u_fetched u;
         s_log := []; s_sent := []; s_panicked := true |}
  end.

(** Scrapes one after another, each in its own environment. *)
Fixpoint scrapes (c : lmqCollector) (ws : list world) : list scrape :=
  match ws with
  | [] => []
  | w :: ws' => let s := Collect c w in s :: scrapes (s_state s) ws'
  end.

Definition final_state (c : lmqCollector) (ws : list world) : lmqCollector :=
  fold_left (fun c' w => s_state (Collect c' w)) ws c.

Definition fetch_count (ss : list scrape) : nat :=
  length (filter (fun s => s_fetched s = true) ss).

(** The queue labels a scrape sent values for. *)
Definition sent_labels (s : scrape) : gset string :=
  ⋃ (map (fun b : batch => dom (snd b)) (s_sent s)).

(** Among the batches [bs], the value for vector [m] and queue [q], if
    any. *)
Definition value_in (bs : list batch) (m : metric) (q : string) : option float64 :=
  match list_find (fun b : batch => fst b = m) bs with
  | Some (_, b) => snd b !! q
  | None => None
  end.

(** The value a scrape sent for vector [m] and queue [q], if any. *)
Definition sent_value (s : scrape) (m : metric) (q : string) : option float64 :=
  value_in (s_sent s) m q.

(** ** Concurrent scrapes: an interleaving semantics *)

(** Where a call of [Collect] stands.
    - [AtLock]: at [c.m.Lock()], the first statement of [updateStats].
    - [Updating sets todo]: inside the [range] loop, holding the mutex;
      [sets] are the [Set] calls left in the current iteration and [todo]
      the map entries not yet visited.
    - [Collecting ms]: [updateStats] returned nil and the deferred
      [Unlock] ran; [ms] are the vectors still to be collected.
    - [Finished]: the call returned or panicked. *)
Inductive pc : Type :=
| AtLock
| Updating (sets : list (metric * string * float64))
           (todo : list (string * option queueStats))
| Collecting (ms : list metric)
| Finished.

Record thread := {
  t_world : world;
  t_pc : pc;
  t_log : list log_entry;
  t_sent : list batch;
  t_panicked : bool
}.

(** The collector shared by all calls, the mutex (held or not), the
    number of [http.Get] calls made so far, and the calls in flight. *)
Record system := {
  sys_c : lmqCollector;
  sys_locked : bool;
  sys_fetches : nat;
  sys_threads : list thread
}.

Definition at_pc (p : pc) (t : thread) : thread :=
  {| t_world := t_world t; t_pc := p; t_log := t_log t;
     t_sent := t_sent t; t_panicked := t_panicked t |}.

Definition queue_sets (name : string) (q : queueStats)
  : list (metric * string * float64) :=
  map (fun m => (m, name, stat_value m q)) all_metrics.

(** One atomic step of a thread on the shared state [(c, locked, fetches)];
    [None] when the thread cannot move (it waits for the mutex, or it has
    finished).  Everything from [Lock] to the assignment of [c.expired]
    touches only state the mutex protects and is one step; after it every
    [Set] and every [Collect] of a vector is a step of its own.  (The
    client library interleaves more finely still: a child is created
    before it is set, and a collected child's value is read when the
    registry writes it out, no earlier than the [Collect] call.) *)
Definition thread_step (c : lmqCollector) (locked : bool) (fetches : nat)
    (t : thread) : option (lmqCollector * bool * nat * thread) :=
  match t_pc t with
  | AtLock =>
      if locked then None
      else
        let w := t_world t in
        if now_check w <? expired c then
          Some (c, false, fetches, at_pc (Collecting all_metrics) t)
        else
          match fetch (http_Get w (uri c)) with
          | Err e =>
              Some (c, false, S fetches,
                    {| t_world := w; t_pc := Finished;
                       t_log := t_log t ++ [FailedToUpdateMetrics e];
                       t_sent := t_sent t; t_panicked := false |})
          | Ok stats =>
              Some (set_expired (now_update w + interval c) c, true, S fetches,
                    at_pc (Updating [] (range_order w stats)) t)
          end
  | Updating ((m, name, v) :: sets) todo =>
      Some (Set_ m name v c, true, fetches, at_pc (Updating sets todo) t)
  | Updating [] ((name, Some q) :: todo) =>
      Some (c, true, fetches, at_pc (Updating (queue_sets name q) todo) t)
  | Updating [] ((name, None) :: todo) =>
      Some (WithLabelValues m_size name c, false, fetches,
            {| t_world := t_world t; t_pc := Finished; t_log := t_log t;
               t_sent := t_sent t; t_panicked := true |})
  | Updating [] [] =>
      Some (c, false, fetches, at_pc (Collecting all_metrics) t)
  | Collecting (m :: ms) =>
      Some (c, locked, fetches,
            {| t_world := t_world t;
               t_pc := match ms with [] => Finished | _ => Collecting ms end;
               t_log := t_log t; t_sent := t_sent t ++ [(m, vec m c)];
               t_panicked := t_panicked t |})
  | Collecting [] => None
  | Finished => None
  end.

(** Thread [i] takes a step, if it can. *)
Definition sys_step (i : nat) (s : system) : option system :=
  t ← sys_threads s !! i;
  r ← thread_step (sys_c s) (sys_locked s) (sys_fetches s) t;
  let '(c, l, f, t') := r in
  Some {| sys_c := c; sys_locked := l; sys_fetches := f;
          sys_threads := <[i := t']> (sys_threads s) |}.

(** A schedule names the thread to run at each step; naming a thread
    that cannot move leaves the system as it is. *)
Definition exec (sched : list nat) (s : system) : system :=
  fold_left (fun s' i => default s' (sys_step i s')) sched s.

Definition new_thread (w : world) : thread :=
  {| t_world := w; t_pc := AtLock; t_log := []; t_sent := [];
     t_panicked := false |}.

(** [Collect] is called once in each environment of [ws], all at once. *)
Definition concurrent_scrapes (c : lmqCollector) (ws : list world) : system :=
  {| sys_c := c; sys_locked := false; sys_fetches := 0;
     sys_threads := new_thread <$> ws |}.

Definition all_finished (s : system) : Prop :=
  Forall (fun t => t_pc t = Finished) (sys_threads s).

(** ** Failure kinds *)

(** The upstream could not be reached or its body could not be read. *)
Definition transport_failure (g : get_result) : Prop :=
  (∃ msg, g = GetErr msg) ∨ (∃ status msg, g = GetResp status (ReadErr msg)).

(** A body arrived and [json.Unmarshal] rejected it. *)
Definition parse_failure (g : get_result) : Prop :=
  ∃ status b e, g = GetResp status (ReadOk b) ∧ Unmarshal b = Err e.

(** The body is a well-formed JSON document. *)
Definition valid_json (b : string) : Prop :=
  is_Some (scan (list_ascii_of_string b)).

(** The queues of the snapshots decoded during [scrapes c ws]. *)
Definition parsed_queues (c : lmqCollector) (w : world) : gset string :=
  if now_check w <? expired c then ∅
  else
    match fetch (http_Get w (uri c)) with
    | Ok stats => dom (Queues stats)
    | Err _ => ∅
    end.

Fixpoint seen_queues (c : lmqCollector) (ws : list world) : gset string :=
  match ws with
  | [] => ∅
  | w :: ws' => parsed_queues c w ∪ seen_queues (s_state (Collect c w)) ws'
  end.

(** The same environment with another status code on the response. *)
Definition with_status (status : Z) (w : world) : world :=
  {| now_check := now_check w;
     http_Get := fun u =>
       match http_Get w u with
       | GetResp _ body => GetResp status body
       | g => g
       end;
     now_update := now_update w;
     range_picks := range_picks w |}.

Definition is_2xx (status : Z) : Prop := 200 <= status < 300.

(** ** Sample data *)

Definition sample_uri : string := "http://localhost:9980/stats".

(** Sample bodies are written with an apostrophe where the text has a
    double quote; [json_text] puts the double quotes in. *)
Definition json_text (s : string) : string :=
  string_of_list_ascii
    (map (fun c => if byte_eqb c "'" then dquote else c) (list_ascii_of_string s)).

Definition snapshot_q1 : string :=
  json_text "{'Queues':{'q1':{'Size':5,'Memory':1024,'Stats':{'Push':{'Count':10},'Pull':{'Count':3},'Retention':{'Min':0.1,'Max':9.9,'arithmetic_mean':2.2,'Median':1.5}}}}}".

Definition snapshot_q1_q2 : string :=
  json_text "{'Queues':{'q1':{'Size':1},'q2':{'Size':2,'Memory':64}}}".

Definition snapshot_q1_only : string :=
  json_text "{'Queues':{'q1':{'Size':7,'Memory':8}}}".

(** An upstream that answers [status] with [body], asked at time [t]. *)
Definition answering (t : Z) (status : Z) (body : string) : world :=
  {| now_check := t; http_Get := fun _ => GetResp status (ReadOk body);
     now_update := t; range_picks := [] |}.

(** An upstream that cannot be reached, asked at time [t]. *)
Definition unreachable (t : Z) : world :=
  {| now_check := t; http_Get := fun _ => GetErr "connection refused";
     now_update := t; range_picks := [] |}.

(** A collector created with interval 5000, and the same after one
    scrape at time 100 that fetched [snapshot_q1]: its cache is valid
    until 5100. *)
Definition fresh_collector : lmqCollector := newLMQCollector sample_uri 5000.

Definition cached_q1 : lmqCollector :=
  s_state (Collect fresh_collector (answering 100 200 snapshot_q1)).

(** The statistics [snapshot_q1] reports for q1. *)
Definition stats_of_q1 : queueStats :=
  {| Size := 5; Memory := 1024;
     Stats := {| Push := {| Count := 10 |}; Pull := {| Count := 3 |};
                 Retention :=
                   {| Min := float64_of_decimal false 1 (-1);
                      Max := float64_of_decimal false 99 (-1);
                      Mean := float64_of_decimal false 22 (-1);
                      Median := float64_of_decimal false 15 (-1) |} |} |}.

(** The collector after a scrape at time 100 that fetched
    [snapshot_q1_q2], its cache valid until 5100. *)
Definition cached_q1_q2 : lmqCollector :=
  s_state (Collect fresh_collector (answering 100 200 snapshot_q1_q2)).

(** The snapshot a body decodes to (the zero snapshot if it does not). *)
Definition decoded (b : string) : lmqStats :=
  match Unmarshal b with
  | Ok stats => stats
  | Err _ => zero_lmqStats
  end.

(** All eight vectors have a child for the same queues. *)
Definition uniform (c : lmqCollector) : Prop :=
  ∀ m, dom (vec m c) = dom (size c).

(** ** The invariant of a race for the refresh *)

Definition apply_sets (sets : list (metric * string * float64))
    (c : lmqCollector) : lmqCollector :=
  fold_left (fun c' x => Set_ x.1.1 x.1.2 x.2 c') sets c.

(** What the rest of a loop in progress leads to. *)
Definition finish_update (sets : list (metric * string * float64))
    (todo : list (string * option queueStats)) (cur : lmqCollector)
  : lmqCollector * outcome :=
  range_Queues todo (apply_sets sets cur).

(** A call that is served from the collector [c']: it waits for the
    mutex and will find the cache fresh, or it has sent a prefix of the
    vectors of [c'], or it has sent them all. *)
Definition served (c' : lmqCollector) (t : thread) : Prop :=
  t_log t = [] ∧ t_panicked t = false
  ∧ match t_pc t with
    | AtLock => t_sent t = [] ∧ now_check (t_world t) < expired c'
    | Collecting ms =>
        ms ≠ [] ∧ t_sent t ++ map (fun m => (m, vec m c')) ms = collect_all c'
    | Finished => t_sent t = collect_all c'
    | Updating _ _ => False
    end.

(** The three phases of calls [ws] racing on collector [c]: nobody has
    the mutex yet; call [i] holds it and is applying its snapshot; call
    [i] has released it and everybody is served from the result. *)
Inductive race_inv (c : lmqCollector) (ws : list world) : system → Prop :=
| race_start :
    race_inv c ws (concurrent_scrapes c ws)
| race_updating i w sets todo cur :
    ws !! i = Some w →
    finish_update sets todo cur = (s_state (Collect c w), Returned None) →
    expired cur = now_update w + interval c →
    race_inv c ws
      {| sys_c := cur; sys_locked := true; sys_fetches := 1;
         sys_threads :=
           <[i := at_pc (Updating sets todo) (new_thread w)]>
             (new_thread <$> ws) |}
| race_serving i w ts :
    ws !! i = Some w →
    s_sent (Collect c w) = collect_all (s_state (Collect c w)) →
    length ts = length ws →
    Forall (served (s_state (Collect c w))) ts →
    race_inv c ws
      {| sys_c := s_state (Collect c w); sys_locked := false;
         sys_fetches := 1; sys_threads := ts |}.

(** Every call arrives with the cache expired, would be answered with a
    snapshot that decodes and has no nil entry, and reads the clock for
    its freshness check before the deadline any other call would set. *)
Record race_conditions (c : lmqCollector) (ws : list world) : Prop := {
  rc_expired : Forall (fun w => ¬ now_check w < expired c) ws;
  rc_answered :
    Forall (fun w => ∃ stats, fetch (http_Get w (uri c)) = Ok stats
                              ∧ ∀ k, Queues stats !! k ≠ Some None) ws;
  rc_window :
    ∀ i j wi wj, ws !! i = Some wi → ws !! j = Some wj → i ≠ j →
                 now_check wj < now_update wi + interval c
}.

(** The phases of a single call running with no other call around,
    against what [Collect] computes in one go. *)
Inductive alone_inv (c : lmqCollector) (w : world) : system → Prop :=
| alone_start :
    alone_inv c w (concurrent_scrapes c [w])
| alone_updating sets todo cur :
    u_fetched (updateStats c w) = true →
    finish_update sets todo cur
    = (u_state (updateStats c w), u_outcome (updateStats c w)) →
    alone_inv c w
      {| sys_c := cur; sys_locked := true; sys_fetches := 1;
         sys_threads := [at_pc (Updating sets todo) (new_thread w)] |}
| alone_collecting ms sent :
    ms ≠ [] → s_log (Collect c w) = [] → s_panicked (Collect c w) = false →
    sent ++ map (fun m => (m, vec m (s_state (Collect c w)))) ms
    = s_sent (Collect c w) →
    alone_inv c w
      {| sys_c := s_state (Collect c w); sys_locked := false;
         sys_fetches := if s_fetched (Collect c w) then 1 else 0;
         sys_threads :=
           [{| t_world := w; t_pc := Collecting ms; t_log := [];
               t_sent := sent; t_panicked := false |}] |}
| alone_finished :
    alone_inv c w
      {| sys_c := s_state (Collect c w); sys_locked := false;
         sys_fetches := if s_fetched (Collect c w) then 1 else 0;
         sys_threads :=
           [{| t_world := w; t_pc := Finished;
               t_log := s_log (Collect c w); t_sent := s_sent (Collect c w);
               t_panicked := s_panicked (Collect c w) |}] |}.

(** ** Progress of concurrent scrapes *)

(** A bound on the steps a call has left; the collector matters only for
    its [uri]. *)
Definition pending (c : lmqCollector) (t : thread) : nat :=
  match t_pc t with
  | AtLock =>
      11 + 9 * match fetch (http_Get (t_world t) (uri c)) with
               | Ok stats => length (range_order (t_world t) stats)
               | Err _ => 0
               end
  | Updating sets todo => 10 + length sets + 9 * length todo
  | Collecting ms => S (length ms)
  | Finished => 0
  end.

Definition total_pending (s : system) : nat :=
  sum_list (pending (sys_c s) <$> sys_threads s).

(** While the mutex is held some call is inside the loop, and no call
    is left with nothing to collect. *)
Definition well_formed (s : system) : Prop :=
  (sys_locked s = true →
   ∃ i t sets todo, sys_threads s !! i = Some t ∧ t_pc t = Updating sets todo)
  ∧ Forall (fun t => t_pc t ≠ Collecting []) (sys_threads s).

#[global] Instance pc_finished_dec (p : pc) : Decision (p = Finished).
Proof. destruct p; (by left) || (by right). Defined.

#[global] Instance all_finished_dec (s : system) : Decision (all_finished s).
Proof. unfold all_finished. apply _. Defined.

(** Two calls at time 100 with the upstream unreachable. *)
Definition outage_race : system :=
  concurrent_scrapes fresh_collector [unreachable 100; unreachable 100].

(** Two calls at time 100 on a collector whose interval is zero; the
    upstream answers the first with [snapshot_q1_q2] and the second with
    [snapshot_q1_only]. *)
Definition zero_interval_race : system :=
  concurrent_scrapes (newLMQCollector sample_uri 0)
    [answering 100 200 snapshot_q1_q2; answering 100 200 snapshot_q1_only].

(** Call 0 refreshes and collects its first vector; call 1 then
    refreshes; call 0 collects its other vectors; call 1 collects. *)
Definition overlapping_schedule : list nat :=
  replicate 21 0%nat ++ replicate 11 1%nat ++ replicate 7 0%nat
  ++ replicate 8 1%nat.

(** Three calls at time 100, each of which would be answered with
    [snapshot_q1], taking turns. *)
Definition three_scrapes : list world := replicate 3 (answering 100 200 snapshot_q1).

Definition round_robin : list nat := concat (replicate 20 [0; 1; 2]%nat).

(** * Properties *)

(** ** The vectors under [Set] *)

Lemma vec_Set_ m' m name v c :
  vec m' (Set_ m name v c)
  = if decide (m' = m) then <[name := v]> (vec m' c) else vec m' c.
Proof. destruct m'; reflexivity. Qed.

Lemma vec_set_queue m name q c :
  vec m (set_queue name q c) = <[name := stat_value m q]> (vec m c).
Proof.
  unfold set_queue; simpl. rewrite !vec_Set_.
  destruct m; reflexivity.
Qed.

Lemma vec_set_expired m t c : vec m (set_expired t c) = vec m c.
Proof. by destruct m. Qed.

(** ** The iteration order *)

Lemma shuffle_Permutation {A} (picks : list nat) (l : list A) :
  shuffle picks l ≡ₚ l.
Proof.
  revert l. induction picks as [|p picks IH]; intros l; simpl; [done|].
  destruct (l !! (p mod length l)%nat) as [x|] eqn:E; [|done].
  rewrite IH. symmetry. by apply delete_Permutation.
Qed.

(** Every order is the result of some picks. *)
Lemma shuffle_complete {A} (l' : list A) : ∀ l,
  l' ≡ₚ l → ∃ picks, shuffle picks l = l'.
Proof.
  induction l' as [|x l' IH]; intros l Hperm.
  - apply Permutation_nil_l in Hperm as ->. by exists [].
  - assert (x ∈ l) as Hx by (rewrite <- Hperm; by left).
    apply list_elem_of_lookup in Hx as [i Hi].
    pose proof (lookup_lt_Some _ _ _ Hi) as Hlt.
    destruct (IH (delete i l)) as [picks Hpicks].
    { apply (Permutation_cons_inv (a := x)).
      rewrite Hperm. by apply delete_Permutation. }
    exists (i :: picks). simpl.
    rewrite Nat.mod_small by done. by rewrite Hi, Hpicks.
Qed.

Lemma range_order_elem w stats k v :
  (k, v) ∈ range_order w stats ↔ Queues stats !! k = Some v.
Proof.
  unfold range_order. rewrite shuffle_Permutation.
  apply elem_of_map_to_list.
Qed.

Lemma range_order_NoDup w stats : NoDup (range_order w stats).*1.
Proof.
  unfold range_order. rewrite shuffle_Permutation.
  apply NoDup_fst_map_to_list.
Qed.

(** ** The loop *)

(** Without a nil entry the loop returns, having set the eight values of
    every queue it walked and nothing else. *)
Lemma range_Queues_returns l : ∀ c,
  NoDup l.*1 → (∀ k, (k, None) ∉ l) →
  ∃ c', range_Queues l c = (c', Returned None)
    ∧ expired c' = expired c ∧ uri c' = uri c ∧ interval c' = interval c
    ∧ (∀ m k q, (k, Some q) ∈ l → vec m c' !! k = Some (stat_value m q))
    ∧ (∀ m k, k ∉ l.*1 → vec m c' !! k = vec m c !! k).
Proof.
  induction l as [|[name [q|]] l IH]; intros c Hnd Hnil.
  - exists c. simpl. split_and!; try done. intros m k q H. by apply elem_of_nil in H.
  - simpl in Hnd. apply NoDup_cons in Hnd as [Hname Hnd].
    destruct (IH (set_queue name q c) Hnd) as (c' & Hr & He & Hu & Hi & Hin & Hout).
    { intros k Hk. apply (Hnil k). by right. }
    exists c'. simpl. split_and!; try done.
    + intros m k q0 Hk. apply elem_of_cons in Hk as [Hk|Hk].
      * injection Hk as -> ->. rewrite Hout by done.
        rewrite vec_set_queue. apply lookup_insert_eq.
      * by apply Hin.
    + intros m k Hk. simpl in Hk. apply not_elem_of_cons in Hk as [Hne Hk].
      rewrite Hout by done. rewrite vec_set_queue.
      by apply lookup_insert_ne.
  - exfalso. apply (Hnil name). by left.
Qed.

(** With a nil entry the loop panics. *)
Lemma range_Queues_panics l : ∀ c k,
  (k, None) ∈ l → (range_Queues l c).2 = Panicked.
Proof.
  induction l as [|[name [q|]] l IH]; intros c k Hk.
  - by apply elem_of_nil in Hk.
  - simpl. apply elem_of_cons in Hk as [Hk|Hk]; [done|]. by eapply IH.
  - done.
Qed.

Lemma range_Queues_outcome l c :
  (range_Queues l c).2 = Returned None ∨ (range_Queues l c).2 = Panicked.
Proof.
  revert c. induction l as [|[name [q|]] l IH]; intros c; simpl; auto.
Qed.

(** ** updateStats *)

Lemma updateStats_fresh c w :
  now_check w < expired c →
  updateStats c w
  = {| u_state := c; u_fetched := false; u_outcome := Returned None |}.
Proof.
  intros H. unfold updateStats.
  by destruct (Z.ltb_spec (now_check w) (expired c)); [|lia].
Qed.

Lemma updateStats_error c w e :
  ¬ now_check w < expired c → fetch (http_Get w (uri c)) = Err e →
  updateStats c w
  = {| u_state := c; u_fetched := true; u_outcome := Returned (Some e) |}.
Proof.
  intros H E. unfold updateStats. rewrite E.
  by destruct (Z.ltb_spec (now_check w) (expired c)); [lia|].
Qed.

(** A refresh that decodes a snapshot without nil entries: [expired]
    moves to the new deadline, every queue of the snapshot has its eight
    values overwritten, every other queue keeps its values. *)
Lemma updateStats_refresh c w stats :
  ¬ now_check w < expired c → fetch (http_Get w (uri c)) = Ok stats →
  (∀ k, Queues stats !! k ≠ Some None) →
  ∃ c', updateStats c w
        = {| u_state := c'; u_fetched := true; u_outcome := Returned None |}
    ∧ expired c' = now_update w + interval c
    ∧ uri c' = uri c ∧ interval c' = interval c
    ∧ ∀ m k, vec m c' !! k
             = match Queues stats !! k with
               | Some (Some q) => Some (stat_value m q)
               | _ => vec m c !! k
               end.
Proof.
  intros H E Hnil. unfold updateStats. rewrite E.
  destruct (Z.ltb_spec (now_check w) (expired c)); [lia|].
  destruct (range_Queues_returns (range_order w stats)
              (set_expired (now_update w + interval c) c))
    as (c' & Hr & He & Hu & Hi & Hin & Hout).
  { apply range_order_NoDup. }
  { intros k Hk. apply range_order_elem in Hk. by apply (Hnil k). }
  exists c'. rewrite Hr. split_and!; try done.
  intros m k. destruct (Queues stats !! k) as [[q|]|] eqn:Ek.
  - apply Hin. by apply range_order_elem.
  - by destruct (Hnil k).
  - rewrite Hout, vec_set_expired; [done|].
    intros Hk. apply list_elem_of_fmap in Hk as ([k' v] & -> & Hk).
    apply range_order_elem in Hk. simpl in Ek. congruence.
Qed.

(** A refresh that decodes a snapshot with a nil entry panics. *)
Lemma updateStats_panics c w stats k :
  ¬ now_check w < expired c → fetch (http_Get w (uri c)) = Ok stats →
  Queues stats !! k = Some None →
  u_outcome (updateStats c w) = Panicked.
Proof.
  intros H E Hk. unfold updateStats. rewrite E.
  destruct (Z.ltb_spec (now_check w) (expired c)); [lia|].
  pose proof (range_Queues_panics (range_order w stats)
                (set_expired (now_update w + interval c) c) k) as Hp.
  destruct (range_Queues _ _) as [c2 o]. simpl in *.
  apply Hp. by apply range_order_elem.
Qed.

(** [updateStats] returns an error exactly when it fetched and the fetch
    or the decoding failed. *)
Lemma updateStats_error_inv c w e :
  u_outcome (updateStats c w) = Returned (Some e) →
  ¬ now_check w < expired c ∧ fetch (http_Get w (uri c)) = Err e.
Proof.
  unfold updateStats.
  destruct (Z.ltb_spec (now_check w) (expired c)); [done|].
  destruct (fetch _) as [stats|e'] eqn:E; simpl.
  - pose proof (range_Queues_outcome (range_order w stats)
                  (set_expired (now_update w + interval c) c)) as Ho.
    destruct (range_Queues _ _) as [c2 o]. simpl in *.
    intros ->. by destruct Ho.
  - intros [= ->]. split; [lia|done].
Qed.

Lemma fetch_error g e :
  fetch g = Err e → transport_failure g ∨ parse_failure g.
Proof.
  destruct g as [msg|status [b|msg]]; simpl; intros H.
  - left. left. eauto.
  - right. by exists status, b, e.
  - left. right. eauto.
Qed.

Lemma failure_fetch g :
  transport_failure g ∨ parse_failure g → ∃ e, fetch g = Err e.
Proof.
  intros [[[msg ->]|(status & msg & ->)]|(status & b & e & -> & H)];
    simpl; eauto.
Qed.

(** ** Collect *)

Lemma Collect_fresh c w :
  now_check w < expired c →
  Collect c w
  = {| s_state := c; s_fetched := false; s_log := [];
       s_sent := collect_all c; s_panicked := false |}.
Proof. intros H. unfold Collect. by rewrite updateStats_fresh. Qed.

Lemma Collect_error c w e :
  ¬ now_check w < expired c → fetch (http_Get w (uri c)) = Err e →
  Collect c w
  = {| s_state := c; s_fetched := true;
       s_log := [FailedToUpdateMetrics e]; s_sent := [];
       s_panicked := false |}.
Proof. intros H E. unfold Collect. by rewrite (updateStats_error c w e). Qed.

Lemma Collect_refresh c w stats :
  ¬ now_check w < expired c → fetch (http_Get w (uri c)) = Ok stats →
  (∀ k, Queues stats !! k ≠ Some None) →
  ∃ c', Collect c w
        = {| s_state := c'; s_fetched := true; s_log := [];
             s_sent := collect_all c'; s_panicked := false |}
    ∧ expired c' = now_update w + interval c
    ∧ uri c' = uri c ∧ interval c' = interval c
    ∧ ∀ m k, vec m c' !! k
             = match Queues stats !! k with
               | Some (Some q) => Some (stat_value m q)
               | _ => vec m c !! k
               end.
Proof.
  intros H E Hnil.
  destruct (updateStats_refresh c w stats H E Hnil) as (c' & Hu & Hrest).
  exists c'. split; [|done]. unfold Collect. by rewrite Hu.
Qed.

Lemma fetch_count_cons s ss :
  fetch_count (s :: ss)
  = ((if s_fetched s then 1 else 0) + fetch_count ss)%nat.
Proof.
  unfold fetch_count. rewrite filter_cons.
  destruct (s_fetched s); case_decide; simpl; congruence.
Qed.

Lemma sent_value_collect_all s c m q :
  s_sent s = collect_all c → sent_value s m q = vec m c !! q.
Proof. intros H. unfold sent_value, value_in. rewrite H. by destruct m. Qed.

(** ** C1: a fresh cache is served without fetching *)

(** C1.  Every [Collect] that reads a clock strictly before [c.expired]
    performs no upstream fetch, leaves the collector as it is and sends
    the cached vectors as they are.  Hence over any sequence of such calls
    no fetch happens; together with the call that opened the window
    (whatever it did) there is at most one fetch; and when that call was
    a successful refresh, the window ends one interval after it and holds
    exactly one fetch. *)
Theorem C1_fresh_cache_no_fetch (c : lmqCollector) (ws : list world) :
  Forall (fun w => now_check w < expired c) ws →
  Forall (fun s => s_fetched s = false ∧ s_state s = c
                   ∧ s_sent s = collect_all c ∧ s_log s = []
                   ∧ s_panicked s = false)
         (scrapes c ws)
  ∧ fetch_count (scrapes c ws) = 0%nat
  ∧ (∀ c0 w0, s_state (Collect c0 w0) = c →
              (fetch_count (scrapes c0 (w0 :: ws)) ≤ 1)%nat)
  ∧ ∀ c0 w0 stats,
      ¬ now_check w0 < expired c0 → fetch (http_Get w0 (uri c0)) = Ok stats →
      (∀ k, Queues stats !! k ≠ Some None) →
      s_state (Collect c0 w0) = c →
      expired c = now_update w0 + interval c0
      ∧ fetch_count (scrapes c0 (w0 :: ws)) = 1%nat.
Proof.
  intros Hws.
  assert (Forall (fun s => s_fetched s = false ∧ s_state s = c
                   ∧ s_sent s = collect_all c ∧ s_log s = []
                   ∧ s_panicked s = false) (scrapes c ws)
          ∧ fetch_count (scrapes c ws) = 0%nat) as [Hall Hcount].
  { induction Hws as [|w ws Hw Hws [IH1 IH2]]; simpl.
    - split; [constructor|done].
    - rewrite fetch_count_cons, (Collect_fresh c w Hw). simpl.
      split; [|done]. constructor; [done|exact IH1]. }
  split_and!; [done..| |].
  - intros c0 w0 Hc0. simpl. rewrite fetch_count_cons, Hc0, Hcount.
    destruct (s_fetched _); lia.
  - intros c0 w0 stats Hf He Hnil Hc0.
    destruct (Collect_refresh c0 w0 stats Hf He Hnil) as (c' & Hc & Hexp & _).
    simpl. rewrite fetch_count_cons, Hc0, Hcount.
    rewrite Hc in Hc0 |- *. simpl in *. subst c'. by split.
Qed.

Lemma C1_fresh_cache_no_fetch_witness :
  Forall (fun w => now_check w < expired cached_q1)
         [answering 200 200 snapshot_q1_only; unreachable 5099]
  ∧ (fetch_count
       (scrapes fresh_collector
          [answering 100 200 snapshot_q1;
           answering 200 200 snapshot_q1_only; unreachable 5099]) ≤ 1)%nat.
Proof.
  assert (Forall (fun w => now_check w < expired cached_q1)
            [answering 200 200 snapshot_q1_only; unreachable 5099]) as H.
  { repeat constructor. }
  split; [exact H|].
  apply (proj1 (proj2 (proj2 (C1_fresh_cache_no_fetch cached_q1 _ H)))
           fresh_collector (answering 100 200 snapshot_q1)).
  reflexivity.
Defined.

(** ** C2: a failed refresh changes nothing *)

(** C2.  When the upstream fetch fails (no response, or a body that
    cannot be read) or the body is rejected by [json.Unmarshal], the
    collector after [Collect] is the collector before it: [expired] keeps
    its value and so does every value of every vector. *)
Theorem C2_failed_refresh_leaves_state (c : lmqCollector) (w : world) :
  transport_failure (http_Get w (uri c)) ∨ parse_failure (http_Get w (uri c)) →
  s_state (Collect c w) = c
  ∧ expired (s_state (Collect c w)) = expired c
  ∧ ∀ m q, vec m (s_state (Collect c w)) !! q = vec m c !! q.
Proof.
  intros Hfail. apply failure_fetch in Hfail as [e He].
  assert (s_state (Collect c w) = c) as ->; [|done].
  destruct (decide (now_check w < expired c)) as [Hf|Hf].
  - by rewrite Collect_fresh.
  - by rewrite (Collect_error c w e).
Qed.

Lemma C2_failed_refresh_leaves_state_witness :
  let w := answering 6000 200 "not json" in
  (transport_failure (http_Get w (uri cached_q1))
   ∨ parse_failure (http_Get w (uri cached_q1)))
  ∧ s_state (Collect cached_q1 w) = cached_q1.
Proof.
  intros w.
  assert (transport_failure (http_Get w (uri cached_q1))
          ∨ parse_failure (http_Get w (uri cached_q1))) as H.
  { right. exists 200, "not json"%string, SyntaxError. split; reflexivity. }
  split; [exact H|].
  exact (proj1 (C2_failed_refresh_leaves_state cached_q1 w H)).
Defined.

(** ** C4: a refresh error ends the scrape quietly *)

(** C4.  When [updateStats] returns an error, [Collect] logs it, sends
    nothing on the channel and returns (it does not panic); the collector
    is left as it was. *)
Theorem C4_refresh_error_emits_nothing (c : lmqCollector) (w : world) (e : error) :
  u_outcome (updateStats c w) = Returned (Some e) →
  Collect c w
  = {| s_state := c; s_fetched := true;
       s_log := [FailedToUpdateMetrics e]; s_sent := [];
       s_panicked := false |}.
Proof.
  intros H. apply updateStats_error_inv in H as [Hf He].
  by apply Collect_error.
Qed.

Lemma C4_refresh_error_emits_nothing_witness :
  let w := unreachable 6000 in
  let e := NetError "connection refused" in
  u_outcome (updateStats cached_q1 w) = Returned (Some e)
  ∧ s_sent (Collect cached_q1 w) = []
  ∧ s_log (Collect cached_q1 w) = [FailedToUpdateMetrics e]
  ∧ s_panicked (Collect cached_q1 w) = false.
Proof.
  intros w e.
  assert (u_outcome (updateStats cached_q1 w) = Returned (Some e)) as H.
  { vm_compute. reflexivity. }
  split; [exact H|].
  rewrite (C4_refresh_error_emits_nothing cached_q1 w e H). simpl.
  split_and!; reflexivity.
Defined.

(** ** C3: what a scrape returns while upstream is failing *)

(** C3, as stated, fails: with the cache expired and the upstream
    unreachable, the collector still holds 5 as the size of q1, and the
    scrape sends no value at all. *)
Lemma C3_counterexample :
  let c := cached_q1 in
  let w := unreachable 6000 in
  ¬ now_check w < expired c
  ∧ transport_failure (http_Get w (uri c))
  ∧ vec m_size c !! "q1" = Some (float64_of_int 5)
  ∧ s_sent (Collect c w) = []
  ∧ sent_value (Collect c w) m_size "q1" = None.
Proof.
  intros c w. split_and!.
  - vm_compute. discriminate.
  - left. by exists "connection refused"%string.
  - vm_compute. reflexivity.
  - vm_compute. reflexivity.
  - vm_compute. reflexivity.
Qed.

(** C3, amended.  While the cache is expired and every refresh fails,
    each scrape sends nothing, logs the failure and returns, and the
    collector keeps the values and the deadline of the last successful
    fetch unchanged. *)
Theorem C3_outage_keeps_values_sends_nothing (c : lmqCollector) (ws : list world) :
  Forall (fun w => ¬ now_check w < expired c
                   ∧ (transport_failure (http_Get w (uri c))
                      ∨ parse_failure (http_Get w (uri c)))) ws →
  final_state c ws = c
  ∧ Forall (fun s => s_state s = c ∧ s_sent s = [] ∧ s_panicked s = false
                     ∧ ∃ e, s_log s = [FailedToUpdateMetrics e])
           (scrapes c ws).
Proof.
  intros Hws. induction Hws as [|w ws [Hf Hfail] Hws [IH1 IH2]].
  - split; [done|constructor].
  - apply failure_fetch in Hfail as [e He].
    unfold final_state in *. simpl.
    rewrite (Collect_error c w e Hf He). simpl.
    split; [exact IH1|]. constructor; [|exact IH2].
    split_and!; eauto.
Qed.

Lemma C3_outage_keeps_values_sends_nothing_witness :
  let ws := [unreachable 6000; answering 7000 200 "not json"] in
  Forall (fun w => ¬ now_check w < expired cached_q1
                   ∧ (transport_failure (http_Get w (uri cached_q1))
                      ∨ parse_failure (http_Get w (uri cached_q1)))) ws
  ∧ final_state cached_q1 ws = cached_q1.
Proof.
  intros ws.
  assert (Forall (fun w => ¬ now_check w < expired cached_q1
                   ∧ (transport_failure (http_Get w (uri cached_q1))
                      ∨ parse_failure (http_Get w (uri cached_q1)))) ws) as H.
  { constructor; [split|constructor; [split|constructor]].
    - vm_compute. discriminate.
    - left. left. by exists "connection refused"%string.
    - vm_compute. discriminate.
    - right. exists 200, "not json"%string, SyntaxError. split; reflexivity. }
  split; [exact H|].
  exact (proj1 (C3_outage_keeps_values_sends_nothing cached_q1 ws H)).
Defined.

(** ** C5: the values of the sample snapshot *)

Lemma Unmarshal_snapshot_q1 :
  Unmarshal snapshot_q1 = Ok {| Queues := {["q1"%string := Some stats_of_q1]} |}.
Proof. vm_compute. reflexivity. Qed.

(** C5.  After a scrape that fetches the sample snapshot, whatever the
    collector held before, the values sent for queue q1 are size 5,
    memory 1024, push 10, pull 3 and the retention figures 0.1, 9.9, 2.2
    (the key arithmetic_mean) and 1.5.  Push and pull are the reported
    totals themselves: they do not depend on the values held before. *)
Theorem C5_sample_snapshot_values (c : lmqCollector) (w : world) (status : Z) :
  ¬ now_check w < expired c →
  http_Get w (uri c) = GetResp status (ReadOk snapshot_q1) →
  let s := Collect c w in
  s_panicked s = false ∧ s_log s = []
  ∧ sent_value s m_size "q1" = Some (float64_of_int 5)
  ∧ sent_value s m_memory "q1" = Some (float64_of_int 1024)
  ∧ sent_value s m_push "q1" = Some (float64_of_int 10)
  ∧ sent_value s m_pull "q1" = Some (float64_of_int 3)
  ∧ sent_value s m_retentionMin "q1" = Some (float64_of_decimal false 1 (-1))
  ∧ sent_value s m_retentionMax "q1" = Some (float64_of_decimal false 99 (-1))
  ∧ sent_value s m_retentionMean "q1" = Some (float64_of_decimal false 22 (-1))
  ∧ sent_value s m_retentionMedian "q1" = Some (float64_of_decimal false 15 (-1)).
Proof.
  intros Hf Hget s.
  destruct (Collect_refresh c w {| Queues := {["q1"%string := Some stats_of_q1]} |})
    as (c' & Hc & _ & _ & _ & Hvec); [done| |..].
  { rewrite Hget. cbn [fetch]. apply Unmarshal_snapshot_q1. }
  { intros k. cbn [Queues]. destruct (decide (k = "q1"%string)) as [->|Hne].
    - by rewrite lookup_singleton_eq.
    - by rewrite lookup_singleton_ne. }
  assert (∀ m, sent_value s m "q1" = Some (stat_value m stats_of_q1)) as Hs.
  { intros m. subst s. rewrite (sent_value_collect_all _ c') by (by rewrite Hc).
    rewrite Hvec. cbn [Queues]. by rewrite lookup_singleton_eq. }
  rewrite !Hs. subst s. rewrite Hc. cbn [s_panicked s_log].
  split_and!; reflexivity.
Qed.

Lemma C5_sample_snapshot_values_witness :
  let c := cached_q1 in
  let w := answering 6000 200 snapshot_q1 in
  ¬ now_check w < expired c
  ∧ http_Get w (uri c) = GetResp 200 (ReadOk snapshot_q1)
  ∧ vec m_push c !! "q1" = Some (float64_of_int 10)
  ∧ sent_value (Collect c w) m_push "q1" = Some (float64_of_int 10).
Proof.
  intros c w.
  assert (¬ now_check w < expired c) as H1 by (vm_compute; discriminate).
  assert (http_Get w (uri c) = GetResp 200 (ReadOk snapshot_q1)) as H2
    by reflexivity.
  split_and!; [exact H1|exact H2|vm_compute; reflexivity|].
  exact (proj1 (proj2 (proj2 (proj2 (proj2
           (C5_sample_snapshot_values c w 200 H1 H2)))))).
Defined.

(** ** C6: queues that left the snapshot keep their values *)

(** C6.  After two successive refreshes, a queue of the first snapshot
    that the second snapshot lacks still has all eight values sent, equal
    to those the first refresh set; and the second refresh leaves the
    values of every queue outside its snapshot as they were. *)
Theorem C6_absent_queue_keeps_values
    (c : lmqCollector) (w1 w2 : world) (stats1 stats2 : lmqStats) (q : string) :
  let c1 := s_state (Collect c w1) in
  let s2 := Collect c1 w2 in
  ¬ now_check w1 < expired c → fetch (http_Get w1 (uri c)) = Ok stats1 →
  u_outcome (updateStats c w1) = Returned None →
  ¬ now_check w2 < expired c1 → fetch (http_Get w2 (uri c1)) = Ok stats2 →
  u_outcome (updateStats c1 w2) = Returned None →
  q ∈ dom (Queues stats1) → q ∉ dom (Queues stats2) →
  (∃ qs, Queues stats1 !! q = Some (Some qs)
         ∧ ∀ m, vec m c1 !! q = Some (stat_value m qs)
                ∧ sent_value s2 m q = Some (stat_value m qs)
                ∧ vec m (s_state s2) !! q = Some (stat_value m qs))
  ∧ ∀ m q', q' ∉ dom (Queues stats2) →
            vec m (s_state s2) !! q' = vec m c1 !! q'.
Proof.
  intros c1 s2 Hf1 He1 Ho1 Hf2 He2 Ho2 Hin Hout.
  assert (∀ k, Queues stats1 !! k ≠ Some None) as Hnil1.
  { intros k Hk. rewrite (updateStats_panics c w1 stats1 k) in Ho1; done. }
  assert (∀ k, Queues stats2 !! k ≠ Some None) as Hnil2.
  { intros k Hk. rewrite (updateStats_panics c1 w2 stats2 k) in Ho2; done. }
  destruct (Collect_refresh c w1 stats1 Hf1 He1 Hnil1)
    as (c1' & Hc1 & _ & _ & _ & Hvec1).
  assert (c1 = c1') as Ec1 by (unfold c1; by rewrite Hc1).
  destruct (Collect_refresh c1 w2 stats2 Hf2 He2 Hnil2)
    as (c2 & Hc2 & _ & _ & _ & Hvec2).
  assert (∀ m q', q' ∉ dom (Queues stats2) →
                  vec m (s_state s2) !! q' = vec m c1 !! q') as Hframe.
  { intros m q' Hq'. apply not_elem_of_dom in Hq'.
    unfold s2. rewrite Hc2. simpl. by rewrite Hvec2, Hq'. }
  split; [|exact Hframe].
  apply elem_of_dom in Hin as [[qs|] Hqs]; [|by destruct (Hnil1 q)].
  exists qs. split; [done|]. intros m.
  assert (vec m c1 !! q = Some (stat_value m qs)) as Hq1.
  { rewrite Ec1, Hvec1. by rewrite Hqs. }
  split_and!; [done| |by rewrite Hframe].
  rewrite (sent_value_collect_all s2 (s_state s2)).
  - by rewrite Hframe.
  - unfold s2. by rewrite Hc2.
Qed.

Lemma C6_absent_queue_keeps_values_witness :
  let c := fresh_collector in
  let w1 := answering 100 200 snapshot_q1_q2 in
  let w2 := answering 6000 200 snapshot_q1_only in
  let c1 := s_state (Collect c w1) in
  (¬ now_check w1 < expired c
   ∧ fetch (http_Get w1 (uri c)) = Ok (decoded snapshot_q1_q2)
   ∧ u_outcome (updateStats c w1) = Returned None
   ∧ ¬ now_check w2 < expired c1
   ∧ fetch (http_Get w2 (uri c1)) = Ok (decoded snapshot_q1_only)
   ∧ u_outcome (updateStats c1 w2) = Returned None
   ∧ "q2"%string ∈ dom (Queues (decoded snapshot_q1_q2))
   ∧ "q2"%string ∉ dom (Queues (decoded snapshot_q1_only)))
  ∧ ∀ m q', q' ∉ dom (Queues (decoded snapshot_q1_only)) →
            vec m (s_state (Collect c1 w2)) !! q' = vec m c1 !! q'.
Proof.
  intros c w1 w2 c1.
  assert (¬ now_check w1 < expired c) as H1 by (vm_compute; discriminate).
  assert (fetch (http_Get w1 (uri c)) = Ok (decoded snapshot_q1_q2)) as E1
    by (vm_compute; reflexivity).
  assert (u_outcome (updateStats c w1) = Returned None) as H2
    by (vm_compute; reflexivity).
  assert (¬ now_check w2 < expired c1) as H3 by (vm_compute; discriminate).
  assert (fetch (http_Get w2 (uri c1)) = Ok (decoded snapshot_q1_only)) as E2
    by (vm_compute; reflexivity).
  assert (u_outcome (updateStats c1 w2) = Returned None) as H4
    by (vm_compute; reflexivity).
  assert ("q2"%string ∈ dom (Queues (decoded snapshot_q1_q2))) as Hin.
  { apply elem_of_dom. vm_compute. eexists. reflexivity. }
  assert ("q2"%string ∉ dom (Queues (decoded snapshot_q1_only))) as Hout.
  { apply not_elem_of_dom. vm_compute. reflexivity. }
  split; [exact (conj H1 (conj E1 (conj H2 (conj H3 (conj E2 (conj H4 (conj Hin Hout)))))))|].
  exact (proj2 (C6_absent_queue_keeps_values c w1 w2 _ _ "q2"
                  H1 E1 H2 H3 E2 H4 Hin Hout)).
Defined.

(** ** C7: which queues a scrape sends *)

Lemma Collect_outcome c w :
  match u_outcome (updateStats c w) with
  | Returned None =>
      s_sent (Collect c w) = collect_all (s_state (Collect c w))
      ∧ s_log (Collect c w) = [] ∧ s_panicked (Collect c w) = false
  | Returned (Some e) =>
      s_sent (Collect c w) = [] ∧ s_log (Collect c w) = [FailedToUpdateMetrics e]
      ∧ s_panicked (Collect c w) = false
  | Panicked =>
      s_sent (Collect c w) = [] ∧ s_log (Collect c w) = []
      ∧ s_panicked (Collect c w) = true
  end.
Proof. unfold Collect. by destruct (u_outcome _) as [[e|]|]. Qed.

Lemma parsed_queues_fresh c w : now_check w < expired c → parsed_queues c w = ∅.
Proof.
  intros H. unfold parsed_queues.
  by destruct (Z.ltb_spec (now_check w) (expired c)); [|lia].
Qed.

Lemma parsed_queues_fetch c w :
  ¬ now_check w < expired c →
  parsed_queues c w
  = match fetch (http_Get w (uri c)) with
    | Ok stats => dom (Queues stats)
    | Err _ => ∅
    end.
Proof.
  intros H. unfold parsed_queues.
  by destruct (Z.ltb_spec (now_check w) (expired c)); [lia|].
Qed.

(** A scrape that does not panic adds the queues of the snapshot it
    decoded, if any, to every vector, and removes none. *)
Lemma Collect_known c w :
  uniform c → s_panicked (Collect c w) = false →
  uniform (s_state (Collect c w))
  ∧ dom (size (s_state (Collect c w))) = dom (size c) ∪ parsed_queues c w.
Proof.
  intros Hu Hp.
  destruct (decide (now_check w < expired c)) as [Hf|Hf].
  { rewrite Collect_fresh, parsed_queues_fresh by done. simpl.
    split; [done|set_solver]. }
  rewrite parsed_queues_fetch by done.
  destruct (fetch (http_Get w (uri c))) as [stats|e] eqn:E.
  2:{ rewrite (Collect_error c w e) by done. simpl. split; [done|set_solver]. }
  assert (∀ k, Queues stats !! k ≠ Some None) as Hnil.
  { intros k Hk. pose proof (Collect_outcome c w) as Ho.
    rewrite (updateStats_panics c w stats k) in Ho by done.
    destruct Ho as (_ & _ & Ho). congruence. }
  destruct (Collect_refresh c w stats Hf E Hnil) as (c' & -> & _ & _ & _ & Hvec).
  simpl.
  assert (∀ m, dom (vec m c') = dom (vec m c) ∪ dom (Queues stats)) as Hdom.
  { intros m. apply set_eq. intros k.
    rewrite elem_of_union, !elem_of_dom, Hvec.
    destruct (Queues stats !! k) as [[q|]|] eqn:Ek.
    - split; [intros _; right|]; eauto.
    - by destruct (Hnil k).
    - split; [by left|]. intros [H|H]; [done|]. by destruct H. }
  pose proof (Hdom m_size) as Hsize. simpl in Hsize.
  split; [|exact Hsize].
  intros m. by rewrite Hdom, Hsize, (Hu m).
Qed.

Lemma sent_labels_collect_all s c :
  s_sent s = collect_all c → uniform c → sent_labels s = dom (size c).
Proof.
  intros Hs Hu. unfold sent_labels. rewrite Hs. simpl.
  pose proof (Hu m_memory); pose proof (Hu m_push); pose proof (Hu m_pull);
    pose proof (Hu m_retentionMin); pose proof (Hu m_retentionMax);
    pose proof (Hu m_retentionMean); pose proof (Hu m_retentionMedian).
  simpl in *. set_solver.
Qed.

Lemma scrapes_app c ws w :
  scrapes c (ws ++ [w]) = scrapes c ws ++ [Collect (final_state c ws) w].
Proof.
  revert c. induction ws as [|w' ws IH]; intros c; [done|].
  simpl. by rewrite IH.
Qed.

Lemma seen_queues_app c ws w :
  seen_queues c (ws ++ [w])
  = seen_queues c ws ∪ parsed_queues (final_state c ws) w.
Proof.
  revert c. induction ws as [|w' ws IH]; intros c; simpl.
  - unfold final_state. simpl. set_solver.
  - rewrite IH. unfold final_state. simpl. set_solver.
Qed.

(** Over scrapes none of which panics, the queues with a child are those
    the collector started with and those of every snapshot decoded. *)
Lemma final_state_known ws : ∀ c,
  uniform c → Forall (fun s => s_panicked s = false) (scrapes c ws) →
  uniform (final_state c ws)
  ∧ dom (size (final_state c ws)) = dom (size c) ∪ seen_queues c ws.
Proof.
  induction ws as [|w ws IH]; intros c Hu Hall.
  - unfold final_state. simpl. split; [done|set_solver].
  - simpl in Hall. apply Forall_cons in Hall as [Hp Hall].
    destruct (Collect_known c w Hu Hp) as [Hu' Hd'].
    destruct (IH _ Hu' Hall) as [Hu'' Hd''].
    unfold final_state in *. simpl. split; [done|].
    rewrite Hd'', Hd'. set_solver.
Qed.

Lemma uniform_new u iv : uniform (newLMQCollector u iv).
Proof. intros m. by destruct m. Qed.

(** C7, as stated, fails: after snapshots {q1, q2} and then {q1}, the
    scrape that decoded {q1} sends values for q1 and q2. *)
Lemma C7_counterexample :
  let c1 := cached_q1_q2 in
  let w2 := answering 6000 200 snapshot_q1_only in
  ¬ now_check w2 < expired c1
  ∧ fetch (http_Get w2 (uri c1)) = Ok (decoded snapshot_q1_only)
  ∧ dom (Queues (decoded snapshot_q1_only)) = {["q1"%string]}
  ∧ sent_labels (Collect c1 w2) = {["q1"%string; "q2"%string]}
  ∧ sent_labels (Collect c1 w2) ≠ dom (Queues (decoded snapshot_q1_only)).
Proof.
  intros c1 w2.
  assert (dom (Queues (decoded snapshot_q1_only)) = {["q1"%string]}) as H1
    by (vm_compute; reflexivity).
  assert (sent_labels (Collect c1 w2) = {["q1"%string; "q2"%string]}) as H2
    by (vm_compute; reflexivity).
  split_and!; [vm_compute; discriminate|vm_compute; reflexivity|done..|].
  rewrite H1, H2. intros H.
  apply (f_equal (fun X : gset string => bool_decide ("q2"%string ∈ X))) in H.
  vm_compute in H. discriminate H.
Qed.

(** C7, amended.  Over scrapes of a new collector none of which panics:
    a scrape whose refresh step returns no error sends values for exactly
    the queues of all snapshots decoded so far, this scrape's included
    (queues are never removed); a scrape whose refresh step returns an
    error sends values for no queue. *)
Theorem C7_sent_labels_accumulate
    (uri0 : string) (iv : Z) (ws : list world) (w : world) :
  let c0 := newLMQCollector uri0 iv in
  let s := Collect (final_state c0 ws) w in
  Forall (fun s' => s_panicked s' = false) (scrapes c0 (ws ++ [w])) →
  (s_log s = [] → sent_labels s = seen_queues c0 (ws ++ [w]))
  ∧ (s_log s ≠ [] → sent_labels s = ∅).
Proof.
  intros c0 s Hall. rewrite scrapes_app in Hall.
  apply Forall_app in Hall as [Hall Hs].
  apply Forall_cons in Hs as [Hs _].
  destruct (final_state_known ws c0 (uniform_new _ _) Hall) as [Hu Hd].
  destruct (Collect_known _ w Hu Hs) as [Hu' Hd'].
  pose proof (Collect_outcome (final_state c0 ws) w) as Ho.
  fold s in Ho, Hu', Hd', Hs.
  destruct (u_outcome _) as [[e|]|]; destruct Ho as (Hsent & Hlog & Hpan).
  - split; [by rewrite Hlog|]. intros _. unfold sent_labels. by rewrite Hsent.
  - split; [|by rewrite Hlog]. intros _.
    rewrite (sent_labels_collect_all s (s_state s)) by done.
    rewrite Hd', Hd, seen_queues_app. simpl. set_solver.
  - congruence.
Qed.

Lemma C7_sent_labels_accumulate_witness :
  let ws := [answering 100 200 snapshot_q1_q2] in
  let w := answering 6000 200 snapshot_q1_only in
  let c0 := newLMQCollector sample_uri 5000 in
  Forall (fun s' => s_panicked s' = false) (scrapes c0 (ws ++ [w]))
  ∧ s_log (Collect (final_state c0 ws) w) = []
  ∧ sent_labels (Collect (final_state c0 ws) w) = seen_queues c0 (ws ++ [w]).
Proof.
  intros ws w c0.
  assert (Forall (fun s' => s_panicked s' = false) (scrapes c0 (ws ++ [w]))) as H.
  { constructor; [vm_compute; reflexivity|].
    constructor; [vm_compute; reflexivity|constructor]. }
  assert (s_log (Collect (final_state c0 ws) w) = []) as Hlog
    by (vm_compute; reflexivity).
  split_and!; [exact H|exact Hlog|].
  exact (proj1 (C7_sent_labels_accumulate sample_uri 5000 ws w H) Hlog).
Defined.

(** ** C8: the status code of the response *)

Lemma fetch_with_status status w u :
  fetch (http_Get (with_status status w) u) = fetch (http_Get w u).
Proof. simpl. by destruct (http_Get w u) as [msg|st [b|msg]]. Qed.

Lemma updateStats_with_status status c w :
  updateStats c (with_status status w) = updateStats c w.
Proof. unfold updateStats. by rewrite fetch_with_status. Qed.

Lemma Collect_with_status status c w :
  Collect c (with_status status w) = Collect c w.
Proof. unfold Collect. by rewrite updateStats_with_status. Qed.

(** C8, as stated, fails: a response with status 500 that carries a
    decodable body refreshes a new collector like any other: nothing is
    logged, [expired] moves from 0 to 5100, the size of q1 is set and
    sent. *)
Lemma C8_counterexample :
  let c := fresh_collector in
  let w := answering 100 500 snapshot_q1 in
  http_Get w (uri c) = GetResp 500 (ReadOk snapshot_q1)
  ∧ ¬ is_2xx 500
  ∧ s_log (Collect c w) = []
  ∧ expired c = 0 ∧ expired (s_state (Collect c w)) = 5100
  ∧ vec m_size c !! "q1" = None
  ∧ vec m_size (s_state (Collect c w)) !! "q1" = Some (float64_of_int 5)
  ∧ sent_value (Collect c w) m_size "q1" = Some (float64_of_int 5).
Proof.
  intros c w. split_and!; try (vm_compute; reflexivity).
  unfold is_2xx. lia.
Qed.

(** C8, amended.  The status code is not inspected: a response with a
    non-2xx status is handled exactly as a 200 response with the same
    body.  When its body cannot be read or is rejected by
    [json.Unmarshal], the failure is logged, no value is updated,
    [expired] is not extended and nothing is sent; when its body decodes
    (to a snapshot without nil entries), [expired] is extended, the
    snapshot's values are set and the vectors are sent. *)
Theorem C8_status_not_inspected
    (c : lmqCollector) (w : world) (status : Z) (body : read_result) :
  ¬ is_2xx status → ¬ now_check w < expired c →
  http_Get w (uri c) = GetResp status body →
  Collect c w = Collect c (with_status 200 w)
  ∧ (∀ e, fetch (GetResp 200 body) = Err e →
          Collect c w
          = {| s_state := c; s_fetched := true;
               s_log := [FailedToUpdateMetrics e]; s_sent := [];
               s_panicked := false |})
  ∧ (∀ stats, fetch (GetResp 200 body) = Ok stats →
              (∀ k, Queues stats !! k ≠ Some None) →
              s_log (Collect c w) = []
              ∧ s_sent (Collect c w) = collect_all (s_state (Collect c w))
              ∧ expired (s_state (Collect c w)) = now_update w + interval c
              ∧ ∀ m k q, Queues stats !! k = Some (Some q) →
                  vec m (s_state (Collect c w)) !! k = Some (stat_value m q)).
Proof.
  intros _ Hf Hget.
  assert (∀ r, fetch (GetResp 200 body) = r → fetch (http_Get w (uri c)) = r)
    as Hfetch by (intros r <-; by rewrite Hget).
  split_and!.
  - by rewrite Collect_with_status.
  - intros e He. apply Collect_error; auto.
  - intros stats Hs Hnil.
    destruct (Collect_refresh c w stats Hf (Hfetch _ Hs) Hnil)
      as (c' & -> & He & _ & _ & Hvec).
    simpl. split_and!; try done.
    intros m k q Hk. by rewrite Hvec, Hk.
Qed.

Lemma C8_status_not_inspected_witness :
  let c := cached_q1 in
  let w := answering 6000 503 "Service Unavailable" in
  (¬ is_2xx 503 ∧ ¬ now_check w < expired c
   ∧ http_Get w (uri c) = GetResp 503 (ReadOk "Service Unavailable"))
  ∧ Collect c w = Collect c (with_status 200 w).
Proof.
  intros c w.
  assert (¬ is_2xx 503) as H1 by (unfold is_2xx; lia).
  assert (¬ now_check w < expired c) as H2 by (vm_compute; discriminate).
  assert (http_Get w (uri c) = GetResp 503 (ReadOk "Service Unavailable")) as H3
    by reflexivity.
  split; [exact (conj H1 (conj H2 H3))|].
  exact (proj1 (C8_status_not_inspected c w 503 _ H1 H2 H3)).
Defined.

(** ** C10: well-formed JSON of another shape *)

Lemma unmarshal_struct_no_field {A} names (set : nat → json → A → result A)
    members (old : A) :
  Forall (fun kv => match_field names kv.1 = None) members →
  unmarshal_struct names set (JObject members) old = Ok old.
Proof.
  simpl. revert old. induction members as [|[k v] members IH]; intros old Hm.
  - done.
  - apply Forall_cons in Hm as [Hk Hm]. simpl in *. rewrite Hk. by apply IH.
Qed.

Lemma shuffle_nil {A} picks : shuffle picks (@nil A) = [].
Proof. by destruct picks. Qed.

(** A refresh that decodes the zero snapshot only moves the deadline. *)
Lemma Collect_zero_snapshot c w :
  ¬ now_check w < expired c →
  fetch (http_Get w (uri c)) = Ok zero_lmqStats →
  Collect c w
  = {| s_state := set_expired (now_update w + interval c) c;
       s_fetched := true; s_log := []; s_sent := collect_all c;
       s_panicked := false |}.
Proof.
  intros Hf He. unfold Collect, updateStats. rewrite He.
  destruct (Z.ltb_spec (now_check w) (expired c)); [lia|].
  unfold range_order, zero_lmqStats. cbn [Queues].
  by rewrite map_to_list_empty, shuffle_nil.
Qed.

(** C10, as stated, fails: the body [[]] is a well-formed JSON document,
    yet [json.Unmarshal] rejects it (an array cannot be stored into the
    struct), so the scrape logs the failure, sends nothing and leaves
    [expired] at 5100. *)
Lemma C10_counterexample :
  let c := cached_q1 in
  let w := answering 6000 200 "[]" in
  valid_json "[]"
  ∧ ¬ now_check w < expired c
  ∧ Unmarshal "[]" = Err (UnmarshalTypeError "array")
  ∧ s_log (Collect c w) = [FailedToUpdateMetrics (UnmarshalTypeError "array")]
  ∧ s_sent (Collect c w) = []
  ∧ expired c = 5100 ∧ expired (s_state (Collect c w)) = 5100.
Proof.
  intros c w. split_and!; try (vm_compute; reflexivity).
  - vm_compute. eauto.
  - vm_compute. discriminate.
Qed.

(** C10, amended.  A body that is a JSON object none of whose keys
    selects the field Queues (by name or under case folding), such as
    [{}] or an unrelated object, is a successful refresh: [expired]
    becomes the update time plus the interval, no value of any vector
    changes, nothing is logged and all the values held are sent.  (A
    well-formed document whose shape contradicts the struct, such as an
    array, is a decoding failure like a body that is not JSON.) *)
Theorem C10_object_without_Queues
    (c : lmqCollector) (w : world) (status : Z) (b : string)
    (members : list (string * json)) :
  ¬ now_check w < expired c →
  http_Get w (uri c) = GetResp status (ReadOk b) →
  scan (list_ascii_of_string b) = Some (JObject members) →
  Forall (fun kv => match_field ["Queues"%string] kv.1 = None) members →
  Collect c w
  = {| s_state := set_expired (now_update w + interval c) c;
       s_fetched := true; s_log := []; s_sent := collect_all c;
       s_panicked := false |}
  ∧ ∀ m, vec m (s_state (Collect c w)) = vec m c.
Proof.
  intros Hf Hget Hscan Hkeys.
  assert (Collect c w
          = {| s_state := set_expired (now_update w + interval c) c;
               s_fetched := true; s_log := []; s_sent := collect_all c;
               s_panicked := false |}) as ->.
  { apply Collect_zero_snapshot; [done|].
    rewrite Hget. cbn [fetch]. unfold Unmarshal. rewrite Hscan.
    by apply unmarshal_struct_no_field. }
  split; [done|]. intros m. apply vec_set_expired.
Qed.

Lemma C10_object_without_Queues_witness :
  let c := cached_q1 in
  let b := json_text "{'status':'ok','uptime':12}" in
  let w := answering 6000 200 b in
  (¬ now_check w < expired c
   ∧ http_Get w (uri c) = GetResp 200 (ReadOk b)
   ∧ scan (list_ascii_of_string b)
     = Some (JObject [("status"%string, JString "ok");
                      ("uptime"%string, JNumber "12")])
   ∧ Forall (fun kv => match_field ["Queues"%string] kv.1 = None)
            [("status"%string, JString "ok"); ("uptime"%string, JNumber "12")])
  ∧ expired (s_state (Collect c w)) = 11000
  ∧ ∀ m, vec m (s_state (Collect c w)) = vec m c.
Proof.
  intros c b w.
  assert (¬ now_check w < expired c) as H1 by (vm_compute; discriminate).
  assert (http_Get w (uri c) = GetResp 200 (ReadOk b)) as H2 by reflexivity.
  assert (scan (list_ascii_of_string b)
          = Some (JObject [("status"%string, JString "ok");
                           ("uptime"%string, JNumber "12")])) as H3
    by (vm_compute; reflexivity).
  assert (Forall (fun kv => match_field ["Queues"%string] kv.1 = None)
            [("status"%string, JString "ok"); ("uptime"%string, JNumber "12")])
    as H4.
  { constructor; [vm_compute; reflexivity|].
    constructor; [vm_compute; reflexivity|constructor]. }
  split; [exact (conj H1 (conj H2 (conj H3 H4)))|].
  destruct (C10_object_without_Queues c w 200 b _ H1 H2 H3 H4) as [-> Hv].
  split; [vm_compute; reflexivity|exact Hv].
Defined.

(** ** C9: concurrent scrapes *)

Lemma s_state_Collect c w : s_state (Collect c w) = u_state (updateStats c w).
Proof. unfold Collect. by destruct (u_outcome _) as [[e|]|]. Qed.

Lemma updateStats_range c w stats :
  ¬ now_check w < expired c → fetch (http_Get w (uri c)) = Ok stats →
  range_Queues (range_order w stats) (set_expired (now_update w + interval c) c)
  = (u_state (updateStats c w), u_outcome (updateStats c w)).
Proof.
  intros Hf He. unfold updateStats. rewrite He.
  destruct (Z.ltb_spec (now_check w) (expired c)); [lia|].
  by destruct (range_Queues _ _).
Qed.

Lemma sys_step_inv i s s' :
  sys_step i s = Some s' →
  ∃ t c l f t',
    sys_threads s !! i = Some t
    ∧ thread_step (sys_c s) (sys_locked s) (sys_fetches s) t = Some (c, l, f, t')
    ∧ s' = {| sys_c := c; sys_locked := l; sys_fetches := f;
              sys_threads := <[i := t']> (sys_threads s) |}.
Proof.
  unfold sys_step. intros H.
  destruct (sys_threads s !! i) as [t|] eqn:Et; simpl in H; [|done].
  destruct (thread_step _ _ _ t) as [[[[c l] f] t']|] eqn:Es; simpl in H; [|done].
  injection H as <-. by exists t, c, l, f, t'.
Qed.

Section race.
Context (c : lmqCollector) (ws : list world).
Context (Hrc : race_conditions c ws).

(** The first call to get the mutex fetches and starts the loop. *)
Lemma race_first_step i s' :
  sys_step i (concurrent_scrapes c ws) = Some s' → race_inv c ws s'.
Proof.
  intros H. apply sys_step_inv in H as (t & c1 & l & f & t' & Ht & Hs & ->).
  simpl in Ht, Hs. rewrite list_lookup_fmap in Ht.
  destruct (ws !! i) as [w|] eqn:Ew; simpl in Ht; [|done].
  injection Ht as <-.
  pose proof (Forall_lookup_1 _ _ _ _ (rc_expired c ws Hrc) Ew) as Hf.
  pose proof (Forall_lookup_1 _ _ _ _ (rc_answered c ws Hrc) Ew)
    as (stats & He & Hnil).
  cbv beta in Hf.
  unfold thread_step in Hs. simpl in Hs. rewrite He in Hs.
  destruct (Z.ltb_spec (now_check w) (expired c)) as [Hlt|Hge] in Hs; [lia|].
  injection Hs as <- <- <- <-.
  apply (race_updating c ws i w [] (range_order w stats)); [done| |done].
  unfold finish_update. simpl.
  rewrite (updateStats_range c w stats Hf He), s_state_Collect.
  destruct (updateStats_refresh c w stats Hf He Hnil) as (c' & -> & _).
  done.
Qed.

(** The holder of the mutex moves on in its loop, or leaves it. *)
Lemma race_updating_step i w sets todo cur j s' :
  ws !! i = Some w →
  finish_update sets todo cur = (s_state (Collect c w), Returned None) →
  expired cur = now_update w + interval c →
  sys_step j
    {| sys_c := cur; sys_locked := true; sys_fetches := 1;
       sys_threads :=
         <[i := at_pc (Updating sets todo) (new_thread w)]>
           (new_thread <$> ws) |} = Some s' →
  race_inv c ws s'.
Proof.
  intros Ew Hfin Hexp H.
  assert (i < length (new_thread <$> ws))%nat as Hi.
  { rewrite length_fmap. by eapply lookup_lt_Some. }
  apply sys_step_inv in H as (t & c1 & l & f & t' & Ht & Hs & ->).
  cbn [sys_threads sys_c sys_locked sys_fetches] in *.
  destruct (decide (j = i)) as [->|Hne].
  2:{ rewrite list_lookup_insert_ne in Ht by done.
      rewrite list_lookup_fmap in Ht.
      destruct (ws !! j) as [wj|]; simpl in Ht; [|done].
      by injection Ht as <-. }
  rewrite list_lookup_insert_eq in Ht by done. injection Ht as <-.
  unfold thread_step in Hs. simpl in Hs.
  destruct sets as [|[[m name] v] sets].
  - destruct todo as [|[name [q|]] todo].
    + (* the loop is over: unlock *)
      injection Hs as <- <- <- <-. rewrite list_insert_insert_eq.
      unfold finish_update in Hfin. simpl in Hfin.
      injection Hfin as Hcur. subst cur.
      destruct (Forall_lookup_1 _ _ _ _ (rc_answered c ws Hrc) Ew)
        as (stats & He & Hnil).
      pose proof (Forall_lookup_1 _ _ _ _ (rc_expired c ws Hrc) Ew) as Hf.
      cbv beta in Hf.
      destruct (Collect_refresh c w stats Hf He Hnil) as (c' & Hc & _).
      apply (race_serving c ws i w); [done|by rewrite Hc| |].
      { by rewrite length_insert, length_fmap. }
      apply Forall_lookup_2. intros k t Hk.
      destruct (decide (k = i)) as [->|Hki].
      * rewrite list_lookup_insert_eq in Hk by done. injection Hk as <-.
        by repeat split.
      * rewrite list_lookup_insert_ne in Hk by done.
        rewrite list_lookup_fmap in Hk.
        destruct (ws !! k) as [wk|] eqn:Ewk; simpl in Hk; [|done].
        injection Hk as <-. repeat split; simpl. rewrite Hexp.
        by apply (rc_window c ws Hrc i k).
    + (* the next queue: its eight Set calls are due *)
      injection Hs as <- <- <- <-. rewrite list_insert_insert_eq.
      by apply (race_updating c ws i w (queue_sets name q) todo cur).
    + (* a nil entry would panic, but there is none *)
      unfold finish_update in Hfin. simpl in Hfin. congruence.
  - (* one Set call *)
    injection Hs as <- <- <- <-. rewrite list_insert_insert_eq.
    by apply (race_updating c ws i w sets todo (Set_ m name v cur)).
Qed.

(** Once the refresh is done, every step serves the refreshed values. *)
Lemma race_serving_step i w ts j s' :
  ws !! i = Some w →
  s_sent (Collect c w) = collect_all (s_state (Collect c w)) →
  length ts = length ws →
  Forall (served (s_state (Collect c w))) ts →
  sys_step j
    {| sys_c := s_state (Collect c w); sys_locked := false;
       sys_fetches := 1; sys_threads := ts |} = Some s' →
  race_inv c ws s'.
Proof.
  intros Ew Hsent Hlen Hall H.
  apply sys_step_inv in H as (t & c1 & l & f & t' & Ht & Hs & ->).
  cbn [sys_threads sys_c sys_locked sys_fetches] in *.
  pose proof (Forall_lookup_1 _ _ _ _ Hall Ht) as (Hlog & Hpan & Hpc).
  assert (c1 = s_state (Collect c w) ∧ l = false ∧ f = 1%nat
          ∧ served (s_state (Collect c w)) t') as (-> & -> & -> & Ht').
  { unfold thread_step in Hs. destruct t as [tw tp tl tsent tpan].
    simpl in *. subst tl tpan. destruct tp as [|sets todo|[|m ms]|].
    - destruct Hpc as [-> Hfresh].
      destruct (Z.ltb_spec (now_check tw) (expired (s_state (Collect c w))))
        in Hs; [|lia].
      injection Hs as <- <- <- <-. by repeat split.
    - done.
    - done.
    - destruct Hpc as [_ Hpre]. injection Hs as <- <- <- <-.
      repeat split; simpl. destruct ms as [|m' ms]; simpl.
      + exact Hpre.
      + split; [done|]. rewrite <- app_assoc. exact Hpre.
    - done. }
  apply (race_serving c ws i w); [done|done| |].
  - by rewrite length_insert.
  - apply Forall_insert; done.
Qed.

Lemma race_inv_step j s s' :
  race_inv c ws s → sys_step j s = Some s' → race_inv c ws s'.
Proof.
  intros Hinv Hstep. destruct Hinv as [|i w sets todo cur|i w ts].
  - by eapply race_first_step.
  - by eapply race_updating_step.
  - by eapply race_serving_step.
Qed.

Lemma race_inv_exec sched : ∀ s,
  race_inv c ws s → race_inv c ws (exec sched s).
Proof.
  induction sched as [|j sched IH]; intros s Hinv; [done|].
  unfold exec. simpl. apply IH.
  destruct (sys_step j s) as [s'|] eqn:E; simpl; [|done].
  by eapply race_inv_step.
Qed.
End race.

(** ** Concurrent scrapes always run to completion *)

Lemma exec_app sched1 sched2 s :
  exec (sched1 ++ sched2) s = exec sched2 (exec sched1 s).
Proof. unfold exec. apply fold_left_app. Qed.

Lemma pending_uri c1 c2 t : uri c1 = uri c2 → pending c1 t = pending c2 t.
Proof. intros H. unfold pending. by rewrite H. Qed.

Lemma sum_list_insert (l : list nat) i x y :
  l !! i = Some x → (sum_list (<[i := y]> l) + x = sum_list l + y)%nat.
Proof.
  revert i. induction l as [|a l IH]; intros [|i] H; simpl in *; try done.
  - injection H as ->. lia.
  - specialize (IH i H). lia.
Qed.

(** A step keeps the [uri] and brings the stepping call closer to its
    end. *)
Lemma thread_step_pending c locked f t c' l' f' t' :
  thread_step c locked f t = Some (c', l', f', t') →
  uri c' = uri c ∧ (pending c t' < pending c t)%nat.
Proof.
  unfold thread_step, pending.
  destruct t as [w p lg sent pan]. simpl.
  destruct p as [|sets todo|ms|]; simpl.
  - destruct locked; [done|].
    destruct (now_check w <? expired c); [|destruct (fetch _)];
      intros [= <- <- <- <-]; simpl; split; try done; lia.
  - destruct sets as [|[[m name] v] sets];
      [destruct todo as [|[name' [q|]] todo]|];
      intros [= <- <- <- <-]; simpl; (split; [|lia]); try done.
    unfold WithLabelValues. by destruct (_ !! _).
  - destruct ms as [|m ms]; [done|].
    intros [= <- <- <- <-]. simpl. split; [done|]. destruct ms; simpl; lia.
  - done.
Qed.

Lemma sys_step_pending i s s' :
  sys_step i s = Some s' → (total_pending s' < total_pending s)%nat.
Proof.
  intros H. apply sys_step_inv in H as (t & c' & l' & f' & t' & Ht & Hs & ->).
  apply thread_step_pending in Hs as [Hu Hlt].
  unfold total_pending. cbn [sys_c sys_threads].
  assert (pending c' <$> <[i:=t']> (sys_threads s)
          = pending (sys_c s) <$> <[i:=t']> (sys_threads s)) as ->.
  { apply list_fmap_ext. intros k x _. by apply pending_uri. }
  rewrite list_fmap_insert.
  pose proof (sum_list_insert (pending (sys_c s) <$> sys_threads s) i
                (pending (sys_c s) t) (pending (sys_c s) t')) as Hsum.
  rewrite list_lookup_fmap, Ht in Hsum. specialize (Hsum eq_refl). lia.
Qed.

Lemma well_formed_start c ws : well_formed (concurrent_scrapes c ws).
Proof.
  split; [done|]. simpl. apply Forall_fmap, Forall_true. done.
Qed.

Lemma well_formed_step i s s' :
  well_formed s → sys_step i s = Some s' → well_formed s'.
Proof.
  intros [Hlock Hcol] H.
  apply sys_step_inv in H as (t & c' & l' & f' & t' & Ht & Hs & ->).
  assert (i < length (sys_threads s))%nat as Hi by by eapply lookup_lt_Some.
  assert (t_pc t' ≠ Collecting []
          ∧ (l' = true →
             (∃ sets todo, t_pc t' = Updating sets todo)
             ∨ (sys_locked s = true ∧ ∀ sets todo, t_pc t ≠ Updating sets todo)))
    as [Ht' Hl'].
  { unfold thread_step in Hs. destruct t as [w p lg sent pan]. simpl in *.
    destruct p as [|sets todo|ms|].
    - destruct (sys_locked s); [done|].
      destruct (now_check w <? expired (sys_c s)); [|destruct (fetch _)];
        injection Hs as <- <- <- <-; simpl; (split; [done|]); try done.
      intros _. left. eauto.
    - destruct sets as [|[[m name] v] sets];
        [destruct todo as [|[name' [q|]] todo]|];
        injection Hs as <- <- <- <-; simpl; (split; [done|]); try done;
        intros _; left; eauto.
    - destruct ms as [|m ms]; [done|].
      injection Hs as <- <- <- <-. simpl. split; [by destruct ms|].
      intros Hl. right. by split.
    - done. }
  split; cbn [sys_locked sys_threads].
  - intros Hl. destruct (Hl' Hl) as [(sets & todo & Hpc)|[Hlocked Hnot]].
    + exists i, t', sets, todo. split; [|done]. by apply list_lookup_insert_eq.
    + destruct (Hlock Hlocked) as (k & tk & sets & todo & Hk & Hpc).
      exists k, tk, sets, todo. split; [|done].
      rewrite list_lookup_insert_ne; [done|].
      intros ->. rewrite Ht in Hk. injection Hk as ->. by eapply Hnot.
  - by apply Forall_insert.
Qed.

Lemma well_formed_exec sched : ∀ s, well_formed s → well_formed (exec sched s).
Proof.
  induction sched as [|i sched IH]; intros s Hwf; [done|].
  unfold exec. simpl. apply IH.
  destruct (sys_step i s) as [s'|] eqn:E; simpl; [|done].
  by eapply well_formed_step.
Qed.

(** A call inside the loop can always move; so can any other unfinished
    call once the mutex is free. *)
Lemma thread_step_enabled c locked f t :
  t_pc t ≠ Finished → t_pc t ≠ Collecting [] →
  (locked = true → ∃ sets todo, t_pc t = Updating sets todo) →
  is_Some (thread_step c locked f t).
Proof.
  intros Hfin Hcol Hlock. unfold thread_step.
  destruct (t_pc t) as [|sets todo|ms|].
  - destruct locked; [by destruct (Hlock eq_refl) as (? & ? & ?)|].
    destruct (_ <? _); [by eexists|]. destruct (fetch _); by eexists.
  - destruct sets as [|[[m name] v] sets];
      [destruct todo as [|[name' [q|]] todo]|]; by eexists.
  - destruct ms; [done|by eexists].
  - done.
Qed.

Lemma sys_step_enabled i s t :
  sys_threads s !! i = Some t →
  is_Some (thread_step (sys_c s) (sys_locked s) (sys_fetches s) t) →
  is_Some (sys_step i s).
Proof.
  intros Ht [[[[c l] f] t'] Hs]. unfold sys_step. rewrite Ht. simpl.
  rewrite Hs. simpl. by eexists.
Qed.

(** No deadlock: unless every call has finished, some call can move. *)
Lemma progress s :
  well_formed s → ¬ all_finished s → ∃ i s', sys_step i s = Some s'.
Proof.
  intros [Hlock Hcol] Hnot.
  assert (∃ i t, sys_threads s !! i = Some t
                 ∧ is_Some (thread_step (sys_c s) (sys_locked s) (sys_fetches s) t))
    as (i & t & Ht & Hen).
  { destruct (sys_locked s) eqn:El.
    - destruct (Hlock eq_refl) as (i & t & sets & todo & Ht & Hpc).
      exists i, t. split; [done|].
      apply thread_step_enabled; [by rewrite Hpc|by rewrite Hpc|eauto].
    - apply not_Forall_Exists in Hnot; [|apply _].
      apply Exists_exists in Hnot as (t & Hin & Hpc).
      apply list_elem_of_lookup in Hin as [i Ht].
      exists i, t. split; [done|].
      apply thread_step_enabled; [done| |done].
      by apply (Forall_lookup_1 _ _ _ _ Hcol Ht). }
  destruct (sys_step_enabled i s t Ht Hen) as [s' Hs']. eauto.
Qed.

Lemma can_finish_within n : ∀ s,
  well_formed s → (total_pending s ≤ n)%nat →
  ∃ sched, all_finished (exec sched s).
Proof.
  induction n as [|n IH]; intros s Hwf Hle.
  - destruct (decide (all_finished s)) as [Hfin|Hnot]; [by exists []|].
    destruct (progress s Hwf Hnot) as (i & s' & Hs).
    apply sys_step_pending in Hs. lia.
  - destruct (decide (all_finished s)) as [Hfin|Hnot]; [by exists []|].
    destruct (progress s Hwf Hnot) as (i & s' & Hs).
    destruct (IH s') as [sched Hsched].
    + by eapply well_formed_step.
    + apply sys_step_pending in Hs. lia.
    + exists (i :: sched). unfold exec in *. simpl. by rewrite Hs.
Qed.

(** Whatever has been scheduled so far, the calls can all be run to
    their end: the mutex is released on every path, also by a panic. *)
Lemma scrapes_can_finish c ws sched :
  ∃ sched', all_finished (exec (sched ++ sched') (concurrent_scrapes c ws)).
Proof.
  destruct (can_finish_within
              (total_pending (exec sched (concurrent_scrapes c ws)))
              (exec sched (concurrent_scrapes c ws)))
    as [sched' H].
  - apply well_formed_exec, well_formed_start.
  - reflexivity.
  - exists sched'. by rewrite exec_app.
Qed.

(** ** A call on its own *)

Lemma s_fetched_Collect c w : s_fetched (Collect c w) = u_fetched (updateStats c w).
Proof. unfold Collect. by destruct (u_outcome _) as [[e|]|]. Qed.

Lemma updateStats_fetched c w :
  ¬ now_check w < expired c → u_fetched (updateStats c w) = true.
Proof.
  intros Hf. unfold updateStats.
  destruct (Z.ltb_spec (now_check w) (expired c)); [lia|].
  destruct (fetch _); [|done]. by destruct (range_Queues _ _).
Qed.

Lemma alone_inv_step c w j s s' :
  alone_inv c w s → sys_step j s = Some s' → alone_inv c w s'.
Proof.
  intros Hinv H.
  apply sys_step_inv in H as (t & c1 & l & f & t' & Ht & Hs & ->).
  pose proof (Collect_outcome c w) as Hout.
  destruct Hinv as [|sets todo cur Hfetched Hfin|ms sent Hms Hlog Hpan Hsent|];
    cbn [sys_threads sys_c sys_locked sys_fetches concurrent_scrapes] in *;
    (destruct j as [|j]; [|done]); injection Ht as <-;
    unfold thread_step in Hs; simpl in Hs.
  - (* the call takes the mutex *)
    destruct (Z.ltb_spec (now_check w) (expired c)) as [Hf|Hf].
    + injection Hs as <- <- <- <-. simpl.
      pose proof (alone_collecting c w all_metrics []) as Hc.
      rewrite (Collect_fresh c w Hf) in Hc. simpl in Hc. by apply Hc.
    + destruct (fetch (http_Get w (uri c))) as [stats|e] eqn:E.
      * injection Hs as <- <- <- <-. simpl.
        apply (alone_updating c w [] (range_order w stats)).
        -- apply updateStats_fetched. lia.
        -- apply updateStats_range; [lia|done].
      * injection Hs as <- <- <- <-. simpl.
        pose proof (alone_finished c w) as Hc.
        rewrite (Collect_error c w e) in Hc by (done || lia). exact Hc.
  - (* the call is inside the loop *)
    unfold finish_update in Hfin.
    destruct sets as [|[[m name] v] sets];
      [destruct todo as [|[name' [q|]] todo]|];
      injection Hs as <- <- <- <-; simpl in *.
    + injection Hfin as Hst Hou. rewrite <- Hou in Hout.
      destruct Hout as (Hsent & Hlog & Hpan).
      pose proof (alone_collecting c w all_metrics [] ltac:(done) Hlog Hpan)
        as Hc.
      rewrite s_fetched_Collect, Hfetched, s_state_Collect, <- Hst in Hc.
      apply Hc. by rewrite Hsent, s_state_Collect, <- Hst.
    + by apply (alone_updating c w (queue_sets name' q) todo cur).
    + injection Hfin as Hst Hou. rewrite <- Hou in Hout.
      destruct Hout as (Hsent & Hlog & Hpan).
      pose proof (alone_finished c w) as Hc.
      by rewrite s_fetched_Collect, Hfetched, s_state_Collect, <- Hst,
        Hsent, Hlog, Hpan in Hc.
    + by apply (alone_updating c w sets todo (Set_ m name v cur)).
  - (* the call collects a vector *)
    destruct ms as [|m ms]; [done|]. injection Hs as <- <- <- <-. simpl.
    destruct ms as [|m' ms].
    + pose proof (alone_finished c w) as Hc.
      by rewrite <- Hsent, Hlog, Hpan in Hc.
    + apply (alone_collecting c w (m' :: ms)); try done.
      by rewrite <- app_assoc.
  - done.
Qed.

Lemma alone_inv_exec c w sched : ∀ s,
  alone_inv c w s → alone_inv c w (exec sched s).
Proof.
  induction sched as [|j sched IH]; intros s Hinv; [done|].
  unfold exec. simpl. apply IH.
  destruct (sys_step j s) as [s'|] eqn:E; simpl; [|done].
  by eapply alone_inv_step.
Qed.

(** A call that runs with no other call around does what [Collect]
    computes: the same collector afterwards, the same fetch, log, vectors
    sent and panic. *)
Lemma alone_is_Collect c w sched :
  let s := exec sched (concurrent_scrapes c [w]) in
  all_finished s →
  sys_c s = s_state (Collect c w)
  ∧ sys_locked s = false
  ∧ sys_fetches s = (if s_fetched (Collect c w) then 1 else 0)%nat
  ∧ ∃ t, sys_threads s = [t]
         ∧ t_log t = s_log (Collect c w)
         ∧ t_sent t = s_sent (Collect c w)
         ∧ t_panicked t = s_panicked (Collect c w).
Proof.
  intros s Hfin.
  pose proof (alone_inv_exec c w sched _ (alone_start c w)) as Hinv.
  fold s in Hinv. unfold all_finished in Hfin.
  destruct Hinv; cbn [sys_threads sys_c sys_locked sys_fetches
                      concurrent_scrapes] in *.
  - by apply Forall_cons in Hfin as [Hfin _].
  - by apply Forall_cons in Hfin as [Hfin _].
  - by apply Forall_cons in Hfin as [Hfin _].
  - split_and!; try done. by eexists.
Qed.

(** C9, as stated, fails.  With the upstream unreachable, two calls that
    arrive with the cache expired both fetch.  With a zero interval, two
    calls that arrive together both fetch even though both fetches
    succeed, and call 0 sends the size of q1 from the first snapshot (1)
    next to the memory of q1 from the second (8). *)
Lemma C9_counterexample :
  (let s := exec [0; 1]%nat outage_race in
   all_finished s ∧ sys_fetches s = 2%nat)
  ∧ (let s := exec overlapping_schedule zero_interval_race in
     all_finished s ∧ sys_fetches s = 2%nat
     ∧ (∃ t, sys_threads s !! 0%nat = Some t
             ∧ value_in (t_sent t) m_size "q1" = Some (float64_of_int 1)
             ∧ value_in (t_sent t) m_memory "q1" = Some (float64_of_int 8))
     ∧ ∃ qa qb,
         Queues (decoded snapshot_q1_q2) !! "q1" = Some (Some qa)
         ∧ Queues (decoded snapshot_q1_only) !! "q1" = Some (Some qb)
         ∧ Size qa = 1 ∧ Memory qa = 0 ∧ Size qb = 7 ∧ Memory qb = 8).
Proof.
  split.
  - split; [|vm_compute; reflexivity].
    unfold all_finished. vm_compute. repeat constructor.
  - split_and!.
    + unfold all_finished. vm_compute. repeat constructor.
    + vm_compute. reflexivity.
    + eexists. split_and!; vm_compute; reflexivity.
    + do 2 eexists. split_and!; vm_compute; reflexivity.
Qed.

Lemma race_conditions_replicate c w n stats :
  ¬ now_check w < expired c → fetch (http_Get w (uri c)) = Ok stats →
  (∀ k, Queues stats !! k ≠ Some None) →
  now_check w < now_update w + interval c →
  race_conditions c (replicate n w).
Proof.
  intros Hf He Hnil Hw. split.
  - by apply Forall_replicate.
  - apply Forall_replicate. eauto.
  - intros i j wi wj Hi Hj _.
    apply lookup_replicate in Hi as [-> _].
    by apply lookup_replicate in Hj as [-> _].
Qed.

(** Safety of a race: the invariant read off at any point of any
    schedule. *)
Lemma race_safety (c : lmqCollector) (ws : list world) (s : system) :
  race_inv c ws s →
  (sys_fetches s ≤ 1)%nat
  ∧ length (sys_threads s) = length ws
  ∧ ((∃ t, t ∈ sys_threads s ∧ t_pc t = Finished) →
     sys_fetches s = 1%nat
     ∧ ∃ w, w ∈ ws
            ∧ sys_c s = s_state (Collect c w)
            ∧ s_sent (Collect c w) = collect_all (s_state (Collect c w))
            ∧ ∀ t, t ∈ sys_threads s → t_pc t = Finished →
                   t_sent t = s_sent (Collect c w)
                   ∧ t_log t = [] ∧ t_panicked t = false).
Proof.
  intros [|i w sets todo cur Ew Hfin Hexp|i w ts Ew Hsent Hlen Hall];
    cbn [sys_fetches sys_threads sys_c concurrent_scrapes].
  - split_and!; [lia|by rewrite length_fmap|].
    intros (t & Ht & Hpc). apply list_elem_of_fmap in Ht as (w & -> & _). done.
  - split_and!; [lia|by rewrite length_insert, length_fmap|].
    intros (t & Ht & Hpc). apply list_elem_of_lookup in Ht as [k Hk].
    destruct (decide (k = i)) as [->|Hne].
    + rewrite list_lookup_insert_eq in Hk; [by injection Hk as <-|].
      rewrite length_fmap. by eapply lookup_lt_Some.
    + rewrite list_lookup_insert_ne, list_lookup_fmap in Hk by done.
      destruct (ws !! k); simpl in Hk; [|done]. by injection Hk as <-.
  - split_and!; [lia|done|]. intros _. split; [done|].
    exists w. split_and!; [by eapply list_elem_of_lookup_2|done|done|].
    intros t Ht Hpc.
    pose proof (proj1 (Forall_forall _ _) Hall t Ht) as (Hlog & Hpan & Hserved).
    rewrite Hpc in Hserved. by rewrite Hsent.
Qed.

(** C9, amended.  Let calls arrive together with the cache expired, each
    of which would get a snapshot that decodes and has no nil entry, and
    each of which makes its freshness check before the deadline another
    call's refresh sets.  Then under every schedule at most one upstream
    fetch is made; and as soon as some call has finished, exactly one
    fetch has been made, by one of the calls, the collector is what that
    call alone would have left, and every finished call has sent exactly
    the vectors of that one refresh, logged nothing and not panicked.
    The calls can always all be run to their end. *)
Theorem C9_one_fetch_one_snapshot
    (c : lmqCollector) (ws : list world) (sched : list nat) :
  race_conditions c ws →
  let s := exec sched (concurrent_scrapes c ws) in
  (sys_fetches s ≤ 1)%nat
  ∧ length (sys_threads s) = length ws
  ∧ ((∃ t, t ∈ sys_threads s ∧ t_pc t = Finished) →
     sys_fetches s = 1%nat
     ∧ ∃ w, w ∈ ws
            ∧ sys_c s = s_state (Collect c w)
            ∧ s_sent (Collect c w) = collect_all (s_state (Collect c w))
            ∧ ∀ t, t ∈ sys_threads s → t_pc t = Finished →
                   t_sent t = s_sent (Collect c w)
                   ∧ t_log t = [] ∧ t_panicked t = false)
  ∧ ∃ sched', all_finished (exec (sched ++ sched') (concurrent_scrapes c ws)).
Proof.
  intros Hrc s.
  pose proof (race_inv_exec c ws Hrc sched _ (race_start c ws)) as Hinv.
  destruct (race_safety c ws s Hinv) as (Hle & Hlen & Hone).
  split_and!; [exact Hle|exact Hlen|exact Hone|].
  apply scrapes_can_finish.
Qed.

Lemma C9_one_fetch_one_snapshot_witness :
  let s := exec round_robin (concurrent_scrapes fresh_collector three_scrapes) in
  race_conditions fresh_collector three_scrapes
  ∧ all_finished s
  ∧ sys_fetches s = 1%nat
  ∧ length (sys_threads s) = 3%nat.
Proof.
  intros s.
  assert (race_conditions fresh_collector three_scrapes) as Hrc.
  { apply (race_conditions_replicate _ _ 3
             {| Queues := {["q1"%string := Some stats_of_q1]} |}).
    - vm_compute. discriminate.
    - apply Unmarshal_snapshot_q1.
    - intros k. cbn [Queues]. destruct (decide (k = "q1"%string)) as [->|Hne].
      + by rewrite lookup_singleton_eq.
      + by rewrite lookup_singleton_ne.
    - vm_compute. reflexivity. }
  assert (all_finished s) as Hfin.
  { unfold all_finished. vm_compute. repeat constructor. }
  destruct (C9_one_fetch_one_snapshot fresh_collector three_scrapes round_robin Hrc)
    as (_ & Hlen & Hone & _).
  fold s in Hlen, Hone.
  split_and!; [exact Hrc|exact Hfin| |exact Hlen].
  unfold all_finished in Hfin.
  destruct (sys_threads s) as [|t ts]; [discriminate Hlen|].
  apply Forall_cons in Hfin as [Hfin _].
  refine (proj1 (Hone _)). exists t. split; [left|exact Hfin].
Defined.
